(** * Confluo filter-expression compiler: DNF compilation and evaluation

    A shallow embedding of [libconfluo/confluo/parser/expression_compiler.h]:
    [compiled_predicate], [compiled_minterm], [compiled_expression], the two
    visitors [utree_expand_conjunction] and [utree_compile_expression], and
    [compile_expression].

    - [std::string] is [string]; [operator<] on it is the unsigned
      lexicographic order [String.ltb].
    - [std::set<T>] ordered by [T::operator<] is the list of its elements in
      iteration (ascending) order; [insert] keeps the list ascending and drops
      an element equivalent to one already present.
    - a thrown exception is the [Err] outcome of a [result]; undefined
      behaviour (an iterator dereferenced past the last child of a range) is
      the outcome [Undefined], which is neither a value nor an exception.
    - what other headers declare (schema, typed values, records, snapshots,
      enumerator values) is gathered in the class [Collaborators]. *)

From Stdlib Require Import List String Ascii ZArith NArith Bool Lia DecimalString.
Import ListNotations.

Set Warnings "-register-all".

Local Open Scope string_scope.
Local Open Scope list_scope.

(** * Part I: definitions *)

(** ** [std::string::operator<] *)

Module StdString.

Definition lt (s t : string) : bool := String.ltb s t.

(** No blank inside the string. *)
Fixpoint blank_free (s : string) : bool :=
  match s with
  | EmptyString => true
  | String c s' => negb (Ascii.eqb c " ") && blank_free s'
  end.

(** A piece that can be told apart inside a joined string: not empty, no blank
    inside. *)
Definition token (s : string) : bool :=
  blank_free s && negb (s =? "")%string.

(** Where a joined string continues after a piece: it ends, or a blank
    follows. *)
Definition boundary (rest : string) : Prop :=
  rest = "" \/ exists r, rest = String " " r.

(** What follows the first piece in the join of [l]'s pieces after it. *)
Definition continuation (sep : string) (l : list string) : string :=
  match l with
  | [] => ""
  | _ => (sep ++ String.concat sep l)%string
  end.

End StdString.

(** ** [std::set] with a comparator derived from a canonical string

    Both sets of the source order their elements by [to_string() <
    other.to_string()]; [canon] is that [to_string]. *)

Section StdSet.

Context {T : Type}.
Variable canon : T -> string.

(** [T::operator<]. *)
Definition less (x y : T) : bool := StdString.lt (canon x) (canon y).

(** [std::set::insert]: position by the comparator, nothing inserted when an
    equivalent element (neither below the other) is present. *)
Fixpoint set_insert (x : T) (s : list T) : list T :=
  match s with
  | [] => [x]
  | y :: s' =>
      if less x y then x :: s
      else if less y x then y :: set_insert x s'
      else s
  end.

(** [std::set_union] over two ascending ranges: the sequence of values it
    assigns through its output iterator. On equivalent heads the element of
    the first range is written and both ranges advance. *)
Fixpoint set_union (l r : list T) {struct l} : list T :=
  let fix walk (r : list T) {struct r} : list T :=
    match l, r with
    | [], _ => r
    | _, [] => l
    | x :: l', y :: r' =>
        if less x y then x :: set_union l' r
        else if less y x then y :: walk r'
        else x :: set_union l' r'
    end
  in walk r.

(** [std::inserter(e, e.end())]: every value assigned through the iterator is
    inserted into [e]; the hint only affects where the search starts. *)
Definition inserter (e : list T) (out : list T) : list T :=
  fold_left (fun acc x => set_insert x acc) out e.

(** Neither below the other: the equivalence a [std::set] identifies its
    members by. *)
Definition equivalent (x y : T) : bool := negb (less x y) && negb (less y x).

(** [++it] for an iterator at the member equivalent to [x]: the member that
    follows it, if any. *)
Fixpoint next_of (x : T) (s : list T) : option T :=
  match s with
  | [] => None
  | y :: s' => if equivalent y x then hd_error s' else next_of x s'
  end.

(** [std::set_union(e.begin(), e.end(), first2, last2, std::inserter(e,
    e.end()))] run on the set it writes into. [cur] is the content of [e],
    [first1] the member the first iterator is at ([None] at [e.end()]), [tmp]
    what is left of the second range; every assignment through the inserter
    changes [cur] before the iterator moves on in it. The three branches are
    the loop of the algorithm, the two cases with one range exhausted are its
    two closing copies. [fuel] bounds the number of steps. *)
Fixpoint set_union_in_place (fuel : nat) (cur : list T) (first1 : option T)
         (tmp : list T) : option (list T) :=
  match fuel with
  | O => None
  | S fuel' =>
      match first1, tmp with
      | None, [] => Some cur
      | None, y :: tmp' =>
          set_union_in_place fuel' (set_insert y cur) None tmp'
      | Some x, [] =>
          let cur' := set_insert x cur in
          set_union_in_place fuel' cur' (next_of x cur') []
      | Some x, y :: tmp' =>
          if less x y then
            let cur' := set_insert x cur in
            set_union_in_place fuel' cur' (next_of x cur') tmp
          else if less y x then
            set_union_in_place fuel' (set_insert y cur) (Some x) tmp'
          else
            let cur' := set_insert x cur in
            set_union_in_place fuel' cur' (next_of x cur') tmp'
      end
  end.

(** The elements strictly ascending by canonical form: the state of a
    [std::set]. *)
Fixpoint ascending (s : list T) : Prop :=
  match s with
  | [] => True
  | x :: s' => (forall y, In y s' -> less x y = true) /\ ascending s'
  end.

Definition canons (s : list T) : list string := map canon s.

End StdSet.

Arguments set_union : simpl never.

(** ** Exceptions and undefined behaviour *)

Inductive exception : Type :=
| parse_exception (what : string)
    (* thrown by the visitors of this header *)
| collaborator_exception (what : string).
    (* thrown by the schema lookup or by the literal parser *)

(** A call into another header returns a value or leaves by an exception. *)
Inductive call (A : Type) : Type :=
| Returns (a : A)
| Throws (e : exception).

Arguments Returns {A} a.
Arguments Throws {A} e.

(** The outcome of a visitor: a value, a thrown exception, or no defined
    behaviour at all. The visitors step through the children of a range with
    [*i] and [*(++i)] and never compare the iterator with [range.end()];
    dereferencing it past the last child is undefined behaviour, not an
    exception. *)
Inductive result (A : Type) : Type :=
| Ok (a : A)
| Err (e : exception)
| Undefined.

Arguments Ok {A} a.
Arguments Err {A} e.
Arguments Undefined {A}.

Definition bind {A B : Type} (c : result A) (k : A -> result B) : result B :=
  match c with
  | Ok a => k a
  | Err e => Err e
  | Undefined => Undefined
  end.

Definition call_result {A : Type} (c : call A) : result A :=
  match c with
  | Returns a => Ok a
  | Throws e => Err e
  end.

Notation "x <- c ;; k" := (bind c (fun x => k))
  (at level 61, c at next level, right associativity).

(** ** The parsed expression tree

    [spirit::utree] is a type-erased node; [utree::visit] hands the visitor the
    payload of the node. The visitors of this header distinguish a range of
    children, a function, and everything else. *)

Inductive utree : Type :=
| utree_list (children : list utree)
| utree_function
| utree_int (n : Z)
| utree_string (s : string)
| utree_other.

(** ** Collaborators (declared in other headers) *)

Class Collaborators : Type := {
  (** typed values: [mutable_value] / [immutable_value], and [data_type] *)
  value : Type;
  data_type : Type;
  (** [mutable_value::parse(literal, type)]; throws on a literal that does not
      parse into the type *)
  parse : string -> data_type -> call value;
  (** [immutable_value::to_string()] *)
  value_to_string : value -> string;
  (** [immutable_value::relop(op, a, b)] *)
  relop : Z -> value -> value -> bool;
  (** [relop_utils::op_to_str(op)] *)
  op_to_str : Z -> string;
  (** the enumerators of [reational_op_id] *)
  EQ : Z;
  NEQ : Z;
  LT : Z;
  GT : Z;
  LE : Z;
  GE : Z;
  (** the enumerators of [and_or] *)
  AND : Z;
  OR : Z;
  (** [typeid(T).name()] of a node's payload type *)
  typeid_name : utree -> string;
  (** [record_t], with [r[i].value()] *)
  record_t : Type;
  record_at : record_t -> N -> value;
  (** [schema_snapshot] and the raw data pointer, with [snap.get(data, i)] *)
  schema_snapshot : Type;
  raw_data : Type;
  snapshot_get : schema_snapshot -> raw_data -> N -> value
}.

Section Compiler.

Context `{Collaborators}.

(** One column of a schema: what [s[attr]] exposes. *)
Record column_t : Type := {
  name : string;
  idx : N;
  type : data_type
}.

(** [schema_t::operator[](attr)]; throws on an unknown attribute. *)
Definition schema_t : Type := string -> call column_t.

(** *** [compiled_predicate] *)

Record compiled_predicate : Type := {
  field_name_ : string;
  field_idx_ : N;
  op_ : Z;
  val_ : value
}.

(** The constructor: [s[attr]] is looked up first, the literal is parsed into
    the column's type last. *)
Definition make_predicate (attr : string) (op : Z) (literal : string)
           (s : schema_t) : result compiled_predicate :=
  col <- call_result (s attr) ;;
  v <- call_result (parse literal (type col)) ;;
  Ok {| field_name_ := name col;
        field_idx_ := idx col;
        op_ := op;
        val_ := v |}.

(** The two [test] overloads differ only in where the field's value is read
    from; [fetch] is that reader. *)
Definition predicate_eval (fetch : N -> value) (p : compiled_predicate) : bool :=
  relop (op_ p) (fetch (field_idx_ p)) (val_ p).

Definition predicate_test (p : compiled_predicate) (r : record_t) : bool :=
  predicate_eval (record_at r) p.

Definition predicate_test_snapshot (p : compiled_predicate)
           (snap : schema_snapshot) (data : raw_data) : bool :=
  predicate_eval (snapshot_get snap data) p.

Definition predicate_to_string (p : compiled_predicate) : string :=
  ((field_name_ p ++ op_to_str (op_ p)) ++ value_to_string (val_ p))%string.

(** *** [compiled_minterm] *)

Definition compiled_minterm : Type := list compiled_predicate.

Definition minterm_add (p : compiled_predicate) (m : compiled_minterm)
  : compiled_minterm :=
  set_insert predicate_to_string p m.

(** [for (auto& p : *this) if (!p.test(..)) return false; return true;] *)
Fixpoint minterm_eval (fetch : N -> value) (m : compiled_minterm) : bool :=
  match m with
  | [] => true
  | p :: rest =>
      if negb (predicate_eval fetch p) then false
      else minterm_eval fetch rest
  end.

Definition minterm_test (m : compiled_minterm) (r : record_t) : bool :=
  minterm_eval (record_at r) m.

Definition minterm_test_snapshot (m : compiled_minterm)
           (snap : schema_snapshot) (data : raw_data) : bool :=
  minterm_eval (snapshot_get snap data) m.

(** The same loop, also reporting which predicates it evaluated, in the order
    it evaluated them. *)
Fixpoint minterm_eval_trace (fetch : N -> value) (m : compiled_minterm)
  : list compiled_predicate * bool :=
  match m with
  | [] => ([], true)
  | p :: rest =>
      if negb (predicate_eval fetch p) then ([p], false)
      else let (seen, b) := minterm_eval_trace fetch rest in (p :: seen, b)
  end.

(** The loop of [compiled_minterm::to_string]: [i] counts the predicates
    already appended, [size] is [size()]. *)
Fixpoint minterm_to_string_loop (size i : N) (s : string)
         (ps : list compiled_predicate) : string :=
  match ps with
  | [] => s
  | p :: rest =>
      let s := (s ++ predicate_to_string p)%string in
      let i := N.succ i in
      let s := if (i <? size)%N then (s ++ " and ")%string else s in
      minterm_to_string_loop size i s rest
  end.

Definition minterm_to_string (m : compiled_minterm) : string :=
  minterm_to_string_loop (N.of_nat (List.length m)) 0 "" m.

(** *** [compiled_expression] *)

Definition compiled_expression : Type := list compiled_minterm.

(** [for (auto& p : *this) if (p.test(..)) return true; return false;] *)
Fixpoint any_minterm (fetch : N -> value) (e : compiled_expression) : bool :=
  match e with
  | [] => false
  | m :: rest =>
      if minterm_eval fetch m then true else any_minterm fetch rest
  end.

(** [if (empty()) return true;] and then the loop. *)
Definition expression_eval (fetch : N -> value) (e : compiled_expression)
  : bool :=
  match e with
  | [] => true
  | _ => any_minterm fetch e
  end.

Definition expression_test (e : compiled_expression) (r : record_t) : bool :=
  expression_eval (record_at r) e.

Definition expression_test_snapshot (e : compiled_expression)
           (snap : schema_snapshot) (data : raw_data) : bool :=
  expression_eval (snapshot_get snap data) e.

(** [s - 1] on [size_t]. *)
Definition size_t_pred (s : N) : N := ((s + 2 ^ 64 - 1) mod 2 ^ 64)%N.

(** The loop of [compiled_expression::to_string]: the separator follows the
    [i]-th minterm when [i < s - 1]. *)
Fixpoint expression_to_string_loop (s i : N) (ret : string)
         (ms : list compiled_minterm) : string :=
  match ms with
  | [] => ret
  | p :: rest =>
      let ret := (ret ++ minterm_to_string p)%string in
      let i := N.succ i in
      let ret := if (i <? size_t_pred s)%N then (ret ++ " or ")%string else ret in
      expression_to_string_loop s i ret rest
  end.

Definition expression_to_string (e : compiled_expression) : string :=
  expression_to_string_loop (N.of_nat (List.length e)) 0 "" e.

(** *** The visitors *)

(** Modelled from the spec: [utree_to_op] and [utree_to_string] are declared
    in [expression_parser.h]; a leaf exposes its operator code as an integer
    payload and its field-name and literal tokens as string payloads, and any
    other payload is an error. *)
Definition utree_to_op (t : utree) : result Z :=
  match t with
  | utree_int n => Ok n
  | _ => Err (parse_exception ("Unrecognized type " ++ typeid_name t))
  end.

(** Modelled from the spec: as [utree_to_op], for the string payload of a
    field-name or literal token. *)
Definition utree_to_string (t : utree) : result string :=
  match t with
  | utree_string s => Ok s
  | _ => Err (parse_exception ("Unrecognized type " ++ typeid_name t))
  end.

(** [std::to_string(op)] *)
Definition int_to_string (n : Z) : string :=
  NilZero.string_of_int (Z.to_int n).

(** The [switch (op)] of both visitors: which group of case labels [op]
    matches. *)
Inductive op_case : Type :=
| case_relational
| case_or
| case_and
| case_default.

Definition relational_labels : list Z := [EQ; NEQ; LT; GT; LE; GE].

Definition switch (op : Z) : op_case :=
  if existsb (Z.eqb op) relational_labels then case_relational
  else if (op =? OR)%Z then case_or
  else if (op =? AND)%Z then case_and
  else case_default.

(** No case label of one group is a case label of another (the compiler
    rejects a [switch] with a repeated label). *)
Definition labels_distinct : Prop :=
  ~ In OR relational_labels /\ ~ In AND relational_labels /\ AND <> OR.

(** The [for (auto& m : left)] loop of both [AND] cases: [visit] expands the
    right operand under one minterm, and the result is merged into [e] by
    [std::set_union(e.begin(), e.end(), tmp.begin(), tmp.end(),
    std::inserter(e, e.end()))]. The union reads [e] while it inserts into
    it; a value inserted during the walk is either already a member or lies
    below the element the walk is at, so the walk meets exactly the members
    [e] had when it started: [set_union_in_place] is that run, and it ends
    with the set this definition writes ([set_union_in_place_correct],
    [and_loops_in_place]). *)
Fixpoint distribute (visit : compiled_minterm -> result compiled_expression)
         (left : list compiled_minterm) (e : compiled_expression)
  : result compiled_expression :=
  match left with
  | [] => Ok e
  | m :: rest =>
      tmp <- visit m ;;
      distribute visit rest (inserter minterm_to_string e
                               (set_union minterm_to_string e tmp))
  end.

(** The same loop with the union run in place on [e]; the fuel covers a walk
    over both ranges. *)
Definition merge_in_place (e tmp : compiled_expression)
  : option compiled_expression :=
  set_union_in_place minterm_to_string (S (List.length e + List.length tmp))
    e (hd_error e) tmp.

Fixpoint distribute_in_place
         (visit : compiled_minterm -> result compiled_expression)
         (left : list compiled_minterm) (e : compiled_expression)
  : option (result compiled_expression) :=
  match left with
  | [] => Some (Ok e)
  | m :: rest =>
      match visit m with
      | Err x => Some (Err x)
      | Undefined => Some Undefined
      | Ok tmp =>
          match merge_in_place e tmp with
          | Some e' => distribute_in_place visit rest e'
          | None => None
          end
      end
  end.

(** [utree_expand_conjunction(m_, schema_)] applied to a node. [i] starts
    at [range.begin()]; each [*i] or [*(++i)] takes the next child, and is
    undefined when no child is left. An operand is visited as soon as it is
    taken, before the iterator moves on. *)
Fixpoint utree_expand_conjunction (m_ : compiled_minterm) (schema_ : schema_t)
         (t : utree) {struct t} : result compiled_expression :=
  match t with
  | utree_list range =>
      match range with
      | [] => Undefined
      | i0 :: after_op =>
          op <- utree_to_op i0 ;;
          match switch op with
          | case_relational =>
              match after_op with
              | [] => Undefined
              | i1 :: after_attr =>
                  attr <- utree_to_string i1 ;;
                  match after_attr with
                  | [] => Undefined
                  | i2 :: _ =>
                      literal <- utree_to_string i2 ;;
                      p <- make_predicate attr op literal schema_ ;;
                      Ok (set_insert minterm_to_string (minterm_add p m_) [])
                  end
              end
          | case_or =>
              match after_op with
              | [] => Undefined
              | i1 :: after_left =>
                  left <- utree_expand_conjunction m_ schema_ i1 ;;
                  match after_left with
                  | [] => Undefined
                  | i2 :: _ =>
                      right <- utree_expand_conjunction m_ schema_ i2 ;;
                      Ok (inserter minterm_to_string []
                            (set_union minterm_to_string left right))
                  end
              end
          | case_and =>
              match after_op with
              | [] => Undefined
              | i1 :: after_left =>
                  lor <- utree_expand_conjunction m_ schema_ i1 ;;
                  match after_left with
                  | [] => Undefined
                  | r :: _ =>
                      distribute
                        (fun lor_m => utree_expand_conjunction lor_m schema_ r)
                        lor []
                  end
              end
          | case_default =>
              Err (parse_exception ("Unexpected op:" ++ int_to_string op))
          end
      end
  | utree_function => Err (parse_exception "Functions not supported")
  | _ => Err (parse_exception ("Unrecognized type " ++ typeid_name t))
  end.

(** [utree_compile_expression(schema_)] applied to a node. *)
Fixpoint utree_compile_expression (schema_ : schema_t) (t : utree) {struct t}
  : result compiled_expression :=
  match t with
  | utree_list range =>
      match range with
      | [] => Undefined
      | i0 :: after_op =>
          op <- utree_to_op i0 ;;
          match switch op with
          | case_relational =>
              match after_op with
              | [] => Undefined
              | i1 :: after_attr =>
                  attr <- utree_to_string i1 ;;
                  match after_attr with
                  | [] => Undefined
                  | i2 :: _ =>
                      literal <- utree_to_string i2 ;;
                      p <- make_predicate attr op literal schema_ ;;
                      Ok (set_insert minterm_to_string (minterm_add p []) [])
                  end
              end
          | case_or =>
              match after_op with
              | [] => Undefined
              | i1 :: after_left =>
                  left <- utree_compile_expression schema_ i1 ;;
                  match after_left with
                  | [] => Undefined
                  | i2 :: _ =>
                      right <- utree_compile_expression schema_ i2 ;;
                      Ok (inserter minterm_to_string []
                            (set_union minterm_to_string left right))
                  end
              end
          | case_and =>
              match after_op with
              | [] => Undefined
              | i1 :: after_left =>
                  left <- utree_compile_expression schema_ i1 ;;
                  match after_left with
                  | [] => Undefined
                  | r :: _ =>
                      distribute
                        (fun m => utree_expand_conjunction m schema_ r)
                        left []
                  end
              end
          | case_default =>
              Err (parse_exception ("Unexpected op:" ++ int_to_string op))
          end
      end
  | utree_function => Err (parse_exception "Functions not supported")
  | _ => Err (parse_exception ("Unrecognized type " ++ typeid_name t))
  end.

Definition compile_expression (e : utree) (schema : schema_t)
  : result compiled_expression :=
  utree_compile_expression schema e.

(** *** The trees the grammar produces *)

(** A comparison [attr op literal]. *)
Definition comparison_node (op : Z) (attr literal : string) : utree :=
  utree_list [utree_int op; utree_string attr; utree_string literal].

Definition and_node (l r : utree) : utree := utree_list [utree_int AND; l; r].

Definition or_node (l r : utree) : utree := utree_list [utree_int OR; l; r].

(** *** Notions used to state the properties *)

(** The minterm obtained from the empty one by adding [ps] one after the
    other. *)
Definition minterm_of (ps : list compiled_predicate) : compiled_minterm :=
  fold_left (fun m p => minterm_add p m) ps [].

(** The comparisons of a tree, left to right: operator code, field name and
    literal. *)
Fixpoint comparisons (t : utree) : list (Z * string * string) :=
  match t with
  | utree_list (utree_int op :: after_op) =>
      match switch op with
      | case_relational =>
          match after_op with
          | utree_string attr :: utree_string literal :: _ =>
              [(op, attr, literal)]
          | _ => []
          end
      | case_or | case_and =>
          match after_op with
          | l :: r :: _ => comparisons l ++ comparisons r
          | _ => []
          end
      | case_default => []
      end
  | _ => []
  end.

(** The predicates built from the comparisons of a tree, left to right. *)
Fixpoint leaf_predicates (schema : schema_t) (t : utree)
  : list compiled_predicate :=
  match t with
  | utree_list (utree_int op :: after_op) =>
      match switch op with
      | case_relational =>
          match after_op with
          | utree_string attr :: utree_string literal :: _ =>
              match make_predicate attr op literal schema with
              | Ok p => [p]
              | _ => []
              end
          | _ => []
          end
      | case_or | case_and =>
          match after_op with
          | l :: r :: _ => leaf_predicates schema l ++ leaf_predicates schema r
          | _ => []
          end
      | case_default => []
      end
  | _ => []
  end.

(** Every comparison of the tree builds its predicate and every other node is
    an [AND] or an [OR] of two such trees. *)
Fixpoint compilable (schema : schema_t) (t : utree) : bool :=
  match t with
  | utree_list (utree_int op :: after_op) =>
      match switch op with
      | case_relational =>
          match after_op with
          | utree_string attr :: utree_string literal :: _ =>
              match make_predicate attr op literal schema with
              | Ok _ => true
              | _ => false
              end
          | _ => false
          end
      | case_or | case_and =>
          match after_op with
          | l :: r :: _ => compilable schema l && compilable schema r
          | _ => false
          end
      | case_default => false
      end
  | _ => false
  end.

(** The truth value of the tree read as a boolean formula over its
    comparisons. *)
Fixpoint denote (fetch : N -> value) (schema : schema_t) (t : utree) : bool :=
  match t with
  | utree_list (utree_int op :: after_op) =>
      match switch op with
      | case_relational =>
          match after_op with
          | utree_string attr :: utree_string literal :: _ =>
              match make_predicate attr op literal schema with
              | Ok p => predicate_eval fetch p
              | _ => false
              end
          | _ => false
          end
      | case_or =>
          match after_op with
          | l :: r :: _ => denote fetch schema l || denote fetch schema r
          | _ => false
          end
      | case_and =>
          match after_op with
          | l :: r :: _ => denote fetch schema l && denote fetch schema r
          | _ => false
          end
      | case_default => false
      end
  | _ => false
  end.

(** Conjunctions of predicates drawn from [ps] that print alike evaluate
    alike: the canonical form tells apart whatever evaluation tells apart. *)
Definition canonical_faithful (ps : list compiled_predicate) : Prop :=
  forall m m' : compiled_minterm,
    incl m ps -> incl m' ps ->
    minterm_to_string m = minterm_to_string m' ->
    forall fetch, minterm_eval fetch m = minterm_eval fetch m'.

(** Conjunctions of predicates drawn from [ps] that print alike are the same
    conjunction: the canonical form tells them apart. *)
Definition canonical_exact (ps : list compiled_predicate) : Prop :=
  forall m m' : compiled_minterm,
    incl m ps -> incl m' ps ->
    minterm_to_string m = minterm_to_string m' ->
    m = m'.



(** The union of two expressions as the spec words it: the minterms of both,
    one per canonical form, in canonical order. *)
Definition union_by_canonical_form (L R : compiled_expression)
  : compiled_expression :=
  inserter minterm_to_string [] (L ++ R).

(** What the loop of [compiled_expression::to_string] writes for the
    canonical forms [cs]: the separator is left out before the last one. *)
Fixpoint join_but_last (sep : string) (cs : list string) : string :=
  match cs with
  | [] => ""
  | c :: rest =>
      match rest with
      | [] => c
      | [d] => (c ++ d)%string
      | _ => (c ++ sep ++ join_but_last sep rest)%string
      end
  end.

End Compiler.

(** ** A concrete set of collaborators

    The schema of the spec's first scenario, [{a: int, b: string}], with
    integer and string values, to run the compiler on concrete trees. *)

Module Fixture.

Inductive field_type : Type := int_type | string_type.

Inductive field_value : Type :=
| int_value (z : Z)
| string_value (s : string).

Definition parse_literal (literal : string) (t : field_type)
  : call field_value :=
  match t with
  | string_type => Returns (string_value literal)
  | int_type =>
      match NilZero.int_of_string literal with
      | Some d => Returns (int_value (Z.of_int d))
      | None => Throws (collaborator_exception "not a number")
      end
  end.

Definition print_value (v : field_value) : string :=
  match v with
  | int_value z => NilZero.string_of_int (Z.to_int z)
  | string_value s => s
  end.

Definition compare_values (a b : field_value) : option comparison :=
  match a, b with
  | int_value x, int_value y => Some (Z.compare x y)
  | string_value x, string_value y => Some (String.compare x y)
  | _, _ => None
  end.

(** Operator codes: [LT = 0], [LE = 1], [GT = 2], [GE = 3], [EQ = 4],
    [NEQ = 5], [AND = 6], [OR = 7]. *)
Definition compare_with (op : Z) (a b : field_value) : bool :=
  match compare_values a b with
  | None => false
  | Some c =>
      match op, c with
      | 0%Z, Lt => true
      | 1%Z, (Lt | Eq) => true
      | 2%Z, Gt => true
      | 3%Z, (Gt | Eq) => true
      | 4%Z, Eq => true
      | 5%Z, (Lt | Gt) => true
      | _, _ => false
      end
  end.

Definition print_op (op : Z) : string :=
  match op with
  | 0%Z => "<"
  | 1%Z => "<="
  | 2%Z => ">"
  | 3%Z => ">="
  | 4%Z => "=="
  | 5%Z => "!="
  | _ => "?"
  end.

Definition payload_name (t : utree) : string :=
  match t with
  | utree_int _ => "int"
  | utree_string _ => "string"
  | _ => "other"
  end.

(** A record, and the raw data behind a snapshot, is the list of the field
    values. *)
Definition field_at (r : list field_value) (i : N) : field_value :=
  nth (N.to_nat i) r (int_value 0).

Definition collaborators : Collaborators := {|
  value := field_value;
  data_type := field_type;
  parse := parse_literal;
  value_to_string := print_value;
  relop := compare_with;
  op_to_str := print_op;
  EQ := 4;
  NEQ := 5;
  LT := 0;
  GT := 2;
  LE := 1;
  GE := 3;
  AND := 6;
  OR := 7;
  typeid_name := payload_name;
  record_t := list field_value;
  record_at := field_at;
  schema_snapshot := unit;
  raw_data := list field_value;
  snapshot_get := fun _ => field_at
|}.

#[local] Existing Instance collaborators.

Definition schema : schema_t :=
  fun attr =>
    if (attr =? "a")%string then
      Returns {| name := "a"; idx := 0; type := int_type |}
    else if (attr =? "b")%string then
      Returns {| name := "b"; idx := 1; type := string_type |}
    else Throws (collaborator_exception "unknown attribute").

(** [a == 1], [a == 2], [a > 5], [b == x] *)
Definition a_is_1 : utree := comparison_node EQ "a" "1".
Definition a_is_2 : utree := comparison_node EQ "a" "2".
Definition a_above_5 : utree := comparison_node GT "a" "5".
Definition b_is_x : utree := comparison_node EQ "b" "x".

(** [b <= 5] and [b < =5]: two comparisons of the string field that print
    alike, [b<=5]. *)
Definition b_le_5 : utree := comparison_node LE "b" "5".
Definition b_lt_eq5 : utree := comparison_node LT "b" "=5".

End Fixture.

(** * Part II: properties *)

(** ** The order on strings *)

Module StdStringFacts.

Lemma ascii_compare_refl (a : ascii) : Ascii.compare a a = Eq.
Proof. unfold Ascii.compare. apply N.compare_refl. Qed.

Lemma ascii_compare_lt_trans (a b c : ascii) :
  Ascii.compare a b = Lt -> Ascii.compare b c = Lt -> Ascii.compare a c = Lt.
Proof.
  unfold Ascii.compare. rewrite !N.compare_lt_iff. lia.
Qed.

Lemma compare_refl (s : string) : String.compare s s = Eq.
Proof.
  induction s as [|a s IH]; simpl; [reflexivity|].
  now rewrite ascii_compare_refl.
Qed.

Lemma compare_lt_trans (s t u : string) :
  String.compare s t = Lt -> String.compare t u = Lt -> String.compare s u = Lt.
Proof.
  revert t u.
  induction s as [|a s IH]; intros [|b t] [|c u]; simpl; try congruence.
  destruct (Ascii.compare a b) eqn:Hab; try discriminate;
    destruct (Ascii.compare b c) eqn:Hbc; try discriminate; intros H1 H2.
  - apply Ascii.compare_eq_iff in Hab, Hbc. subst.
    rewrite ascii_compare_refl. eauto.
  - apply Ascii.compare_eq_iff in Hab. subst. now rewrite Hbc.
  - apply Ascii.compare_eq_iff in Hbc. subst. now rewrite Hab.
  - now rewrite (ascii_compare_lt_trans a b c).
Qed.

Lemma lt_irrefl (s : string) : StdString.lt s s = false.
Proof. unfold StdString.lt, String.ltb. now rewrite compare_refl. Qed.

Lemma lt_trans (s t u : string) :
  StdString.lt s t = true -> StdString.lt t u = true -> StdString.lt s u = true.
Proof.
  unfold StdString.lt, String.ltb.
  destruct (String.compare s t) eqn:H1; try discriminate.
  destruct (String.compare t u) eqn:H2; try discriminate.
  now rewrite (compare_lt_trans s t u).
Qed.

Lemma lt_asym (s t : string) : StdString.lt s t = true -> StdString.lt t s = false.
Proof.
  intros H. destruct (StdString.lt t s) eqn:H'; [|reflexivity].
  pose proof (lt_trans _ _ _ H H') as Hss.
  rewrite lt_irrefl in Hss. discriminate.
Qed.

(** Two strings neither of which is below the other are the same string. *)
Lemma lt_total (s t : string) : StdString.lt s t = false -> StdString.lt t s = false -> s = t.
Proof.
  unfold StdString.lt, String.ltb. rewrite (String.compare_antisym t s).
  destruct (String.compare s t) eqn:H; simpl; try discriminate.
  intros _ _. now apply String.compare_eq_iff.
Qed.

Lemma append_assoc (s t u : string) : ((s ++ t) ++ u = s ++ (t ++ u))%string.
Proof. induction s as [|a s IH]; simpl; [reflexivity|now rewrite IH]. Qed.

Lemma append_nil_r (s : string) : (s ++ "")%string = s.
Proof. induction s as [|a s IH]; simpl; [reflexivity|now rewrite IH]. Qed.

Lemma length_append (s t : string) :
  String.length (s ++ t)%string = String.length s + String.length t.
Proof. induction s as [|a s IH]; simpl; [reflexivity|now rewrite IH]. Qed.

(** *** Joining blank-free strings *)

Lemma blank_free_head c s :
  StdString.blank_free (String c s) = true ->
  c <> " "%char /\ StdString.blank_free s = true.
Proof.
  simpl. intros Hb. apply andb_true_iff in Hb as [Hc Hs]. split; [|assumption].
  intros ->. rewrite Ascii.eqb_refl in Hc. discriminate.
Qed.

Lemma split_at_boundary x : forall x' rest rest',
  StdString.blank_free x = true -> StdString.blank_free x' = true ->
  StdString.boundary rest -> StdString.boundary rest' ->
  (x ++ rest)%string = (x' ++ rest')%string ->
  x = x' /\ rest = rest'.
Proof.
  induction x as [|c x IH]; intros [|c' x'] rest rest' Hx Hx' Hr Hr'; simpl.
  - auto.
  - intros ->. apply blank_free_head in Hx' as [Hc' _].
    destruct Hr as [Hr|(r & Hr)]; [discriminate|]. congruence.
  - intros <-. apply blank_free_head in Hx as [Hc _].
    destruct Hr' as [Hr'|(r & Hr')]; [discriminate|]. congruence.
  - intros [= -> Htl].
    apply blank_free_head in Hx as [_ Hx]. apply blank_free_head in Hx' as [_ Hx'].
    destruct (IH x' rest rest' Hx Hx' Hr Hr' Htl) as [-> ->]. auto.
Qed.

Lemma concat_cons sep x l :
  String.concat sep (x :: l) = (x ++ StdString.continuation sep l)%string.
Proof. destruct l; simpl; [now rewrite append_nil_r|reflexivity]. Qed.

Lemma continuation_boundary l : StdString.boundary (StdString.continuation " and " l).
Proof. destruct l; [now left|right]. simpl. eauto. Qed.

Lemma token_inv s :
  StdString.token s = true -> StdString.blank_free s = true /\ s <> "".
Proof.
  unfold StdString.token. intros Ht. apply andb_true_iff in Ht as [Hb Hne].
  split; [assumption|]. intros ->. discriminate.
Qed.

(** Joining tokens with [" and "] loses nothing: the tokens can be read back
    from the joined string. *)
Lemma concat_tokens_inj l : forall l',
  Forall (fun s => StdString.token s = true) l ->
  Forall (fun s => StdString.token s = true) l' ->
  String.concat " and " l = String.concat " and " l' ->
  l = l'.
Proof.
  induction l as [|x l IH]; intros [|x' l'] Hl Hl'.
  - reflexivity.
  - rewrite concat_cons. inversion Hl' as [|? ? Hx' _]; subst.
    apply token_inv in Hx' as [_ Hne]. simpl.
    destruct x'; [congruence|discriminate].
  - rewrite concat_cons. inversion Hl as [|? ? Hx _]; subst.
    apply token_inv in Hx as [_ Hne]. simpl.
    destruct x; [congruence|discriminate].
  - rewrite !concat_cons. intros Heq.
    inversion Hl as [|? ? Hx Hl1]; inversion Hl' as [|? ? Hx' Hl1']; subst.
    apply token_inv in Hx as [Hx _]. apply token_inv in Hx' as [Hx' _].
    destruct (split_at_boundary x x' _ _ Hx Hx'
                (continuation_boundary l) (continuation_boundary l') Heq)
      as [-> Hrest].
    f_equal. destruct l as [|y l], l' as [|y' l']; try discriminate.
    + reflexivity.
    + apply IH; auto. simpl StdString.continuation in Hrest.
      now injection Hrest.
Qed.


End StdStringFacts.

(** ** The ordered set *)

Section StdSetFacts.

Context {T : Type}.
Variable canon : T -> string.

Local Abbreviation less := (less canon).
Local Abbreviation set_insert := (set_insert canon).
Local Abbreviation set_union := (set_union canon).
Local Abbreviation inserter := (inserter canon).
Local Abbreviation ascending := (ascending canon).
Local Abbreviation canons := (canons canon).

Lemma less_irrefl x : less x x = false.
Proof. apply StdStringFacts.lt_irrefl. Qed.

Lemma less_trans x y z : less x y = true -> less y z = true -> less x z = true.
Proof. apply StdStringFacts.lt_trans. Qed.

Lemma less_asym x y : less x y = true -> less y x = false.
Proof. apply StdStringFacts.lt_asym. Qed.

Lemma less_equiv x y : less x y = false -> less y x = false -> canon x = canon y.
Proof. apply StdStringFacts.lt_total. Qed.

Lemma less_canon x x' y : canon x = canon x' -> less x y = less x' y.
Proof. unfold less. now intros ->. Qed.

Lemma less_canon_r x y y' : canon y = canon y' -> less x y = less x y'.
Proof. unfold less. now intros ->. Qed.

Lemma set_union_nil_l r : set_union [] r = r.
Proof. destruct r; reflexivity. Qed.

Lemma set_union_nil_r l : set_union l [] = l.
Proof. destruct l; reflexivity. Qed.

Lemma set_union_cons x l y r :
  set_union (x :: l) (y :: r) =
    if less x y then x :: set_union l (y :: r)
    else if less y x then y :: set_union (x :: l) r
    else x :: set_union l r.
Proof. reflexivity. Qed.

(** Induction following the three branches of [set_union]. *)
Lemma set_union_ind (P : list T -> list T -> Prop) :
  (forall r, P [] r) ->
  (forall l, P l []) ->
  (forall x l y r,
      (less x y = true -> P l (y :: r)) ->
      (less x y = false -> less y x = true -> P (x :: l) r) ->
      (less x y = false -> less y x = false -> P l r) ->
      P (x :: l) (y :: r)) ->
  forall l r, P l r.
Proof.
  intros Hnil_l Hnil_r Hstep.
  induction l as [|x l IHl]; [assumption|].
  induction r as [|y r IHr]; [apply Hnil_r|].
  apply Hstep; intros; auto.
Qed.

(** *** Membership *)

Lemma set_insert_In x s y :
  In y (set_insert x s) -> y = x \/ In y s.
Proof.
  induction s as [|z s IH]; simpl.
  - intros [->|[]]. now left.
  - destruct (less x z); [|destruct (less z x)]; simpl; intuition.
Qed.

Lemma set_insert_keeps x s y : In y s -> In y (set_insert x s).
Proof.
  induction s as [|z s IH]; simpl; [tauto|].
  destruct (less x z); [|destruct (less z x)]; simpl; intuition.
Qed.

Lemma set_insert_canon_In x s : In (canon x) (canons (set_insert x s)).
Proof.
  induction s as [|z s IH]; simpl; [now left|].
  destruct (less x z) eqn:Hxz; [simpl; now left|].
  destruct (less z x) eqn:Hzx; simpl; [now right|].
  left. symmetry. now apply less_equiv.
Qed.

Lemma set_insert_nonempty x s : set_insert x s <> [].
Proof.
  destruct s as [|z s]; simpl; [discriminate|].
  destruct (less x z); [|destruct (less z x)]; discriminate.
Qed.

Lemma set_insert_new x s :
  (forall y, In y s -> canon y <> canon x) -> In x (set_insert x s).
Proof.
  induction s as [|z s IH]; simpl; intros Hnew; [now left|].
  destruct (less x z) eqn:Hxz; [now left|].
  destruct (less z x) eqn:Hzx.
  - right. apply IH. intros y Hy. apply Hnew. now right.
  - exfalso. apply (Hnew z); [now left|]. now apply less_equiv.
Qed.

(** *** The ascending invariant *)

Lemma set_insert_ascending x s : ascending s -> ascending (set_insert x s).
Proof.
  induction s as [|z s IH]; simpl.
  - intros _. split; [intros y []|exact I].
  - intros [Hz Hs].
    destruct (less x z) eqn:Hxz.
    + simpl. split; [|now split].
      intros y [<-|Hy]; [assumption|].
      eapply less_trans; eauto.
    + destruct (less z x) eqn:Hzx; [|now split].
      simpl. split; [|auto].
      intros y Hy. apply set_insert_In in Hy as [->|Hy]; auto.
Qed.

(** Inserting an element equivalent to a member changes nothing. *)
Lemma set_insert_present x s :
  ascending s -> In (canon x) (canons s) -> set_insert x s = s.
Proof.
  induction s as [|z s IH]; simpl; [tauto|].
  intros [Hz Hs] [Heq|Hin].
  - unfold less. rewrite Heq, StdStringFacts.lt_irrefl. reflexivity.
  - apply in_map_iff in Hin as (y & Hy & Hin).
    pose proof (Hz y Hin) as Hzy.
    unfold less in *. rewrite <- Hy.
    rewrite (StdStringFacts.lt_asym _ _ Hzy), Hzy.
    f_equal. apply IH; [assumption|].
    apply in_map_iff. eauto.
Qed.

(** Inserting above every member appends. *)
Lemma set_insert_above x s :
  (forall y, In y s -> less y x = true) -> set_insert x s = s ++ [x].
Proof.
  induction s as [|z s IH]; simpl; intros Hs; [reflexivity|].
  rewrite (less_asym z x) by auto.
  rewrite (Hs z) by auto.
  f_equal. auto.
Qed.

Lemma ascending_app_last s x :
  ascending s -> (forall y, In y s -> less y x = true) -> ascending (s ++ [x]).
Proof.
  induction s as [|z s IH]; simpl; intros Hs Hx.
  - split; [intros y []|exact I].
  - destruct Hs as [Hz Hs]. split; [|auto].
    intros y Hy. apply in_app_or in Hy as [Hy|[<-|[]]]; auto.
Qed.

Lemma ascending_NoDup_canons s : ascending s -> NoDup (canons s).
Proof.
  induction s as [|z s IH]; simpl; intros Hs; constructor.
  - destruct Hs as [Hz _]. intros Hin.
    apply in_map_iff in Hin as (y & Hy & Hin).
    specialize (Hz y Hin). unfold less in Hz.
    rewrite Hy, StdStringFacts.lt_irrefl in Hz. discriminate.
  - apply IH. tauto.
Qed.

Lemma ascending_app s x t :
  ascending (s ++ x :: t) -> forall y, In y s -> less y x = true.
Proof.
  induction s as [|z s IH]; simpl; [tauto|].
  intros [Hz Hs] y [<-|Hy]; [|now apply IH].
  apply Hz, in_or_app. right. now left.
Qed.

(** *** [set_union] *)

Lemma set_union_In l r y : In y (set_union l r) -> In y l \/ In y r.
Proof.
  revert y. pattern l, r. apply set_union_ind; clear l r.
  - intros r y. rewrite set_union_nil_l. tauto.
  - intros l y. rewrite set_union_nil_r. tauto.
  - intros x l y r H1 H2 H3 z. rewrite set_union_cons.
    destruct (less x y) eqn:Hxy; [|destruct (less y x) eqn:Hyx]; simpl.
    + intros [<-|Hz]; [tauto|]. destruct (H1 eq_refl z Hz); simpl in *; tauto.
    + intros [<-|Hz]; [tauto|]. destruct (H2 eq_refl eq_refl z Hz); simpl in *; tauto.
    + intros [<-|Hz]; [tauto|]. destruct (H3 eq_refl eq_refl z Hz); tauto.
Qed.

(** Every element of the first range is written. *)
Lemma set_union_left l r y : In y l -> In y (set_union l r).
Proof.
  revert y. pattern l, r. apply set_union_ind; clear l r.
  - intros r y [].
  - intros l y. now rewrite set_union_nil_r.
  - intros x l y r H1 H2 H3 z. rewrite set_union_cons.
    destruct (less x y) eqn:Hxy; [|destruct (less y x) eqn:Hyx]; simpl.
    + intros [<-|Hz]; [tauto|]. right. now apply H1.
    + intros Hz. right. now apply H2.
    + intros [<-|Hz]; [tauto|]. right. now apply H3.
Qed.

(** An element of the second range is skipped only for an equivalent
    element of the first. *)
Lemma set_union_right l r y :
  In y r -> In y (set_union l r) \/ exists x, In x l /\ canon x = canon y.
Proof.
  revert y. pattern l, r. apply set_union_ind; clear l r.
  - intros r y Hy. left. now rewrite set_union_nil_l.
  - intros l y [].
  - intros x l y r H1 H2 H3 z. rewrite set_union_cons.
    destruct (less x y) eqn:Hxy; [|destruct (less y x) eqn:Hyx]; simpl.
    + intros Hz. destruct (H1 eq_refl z Hz) as [?|(w & ? & ?)]; eauto.
    + intros [<-|Hz]; [tauto|].
      destruct (H2 eq_refl eq_refl z Hz) as [?|(w & ? & ?)]; eauto.
    + intros [<-|Hz].
      * right. exists x. split; [now left|]. now apply less_equiv.
      * destruct (H3 eq_refl eq_refl z Hz) as [?|(w & ? & ?)]; eauto.
Qed.

Lemma set_union_canons l r c :
  In c (canons (set_union l r)) <-> In c (canons l) \/ In c (canons r).
Proof.
  unfold canons. rewrite !in_map_iff. split.
  - intros (y & <- & Hy). apply set_union_In in Hy as [Hy|Hy]; eauto.
  - intros [(y & <- & Hy)|(y & <- & Hy)].
    + exists y. split; [reflexivity|]. now apply set_union_left.
    + destruct (set_union_right l r y Hy) as [Hin|(x & Hx & Heq)]; [eauto|].
      exists x. split; [assumption|]. now apply set_union_left.
Qed.

Lemma set_union_ascending l r :
  ascending l -> ascending r -> ascending (set_union l r).
Proof.
  pattern l, r. apply set_union_ind; clear l r.
  - intros r _ Hr. now rewrite set_union_nil_l.
  - intros l Hl _. now rewrite set_union_nil_r.
  - intros x l y r H1 H2 H3 Hl Hr. rewrite set_union_cons.
    pose proof Hl as [Hx Hl']. pose proof Hr as [Hy Hr'].
    destruct (less x y) eqn:Hxy; [|destruct (less y x) eqn:Hyx]; simpl.
    + split; [|auto]. intros z Hz.
      apply set_union_In in Hz as [Hz|[<-|Hz]]; auto.
      eapply less_trans; eauto.
    + split; [|auto]. intros z Hz.
      apply set_union_In in Hz as [[<-|Hz]|Hz]; auto.
      eapply less_trans; eauto.
    + split; [|auto]. intros z Hz.
      apply set_union_In in Hz as [Hz|Hz]; auto.
      rewrite (less_canon x y z); auto using less_equiv.
Qed.

(** *** [inserter] *)

Lemma inserter_ascending e out : ascending e -> ascending (inserter e out).
Proof.
  unfold inserter. revert e.
  induction out as [|x out IH]; simpl; auto using set_insert_ascending.
Qed.

Lemma inserter_In e out y : In y (inserter e out) -> In y e \/ In y out.
Proof.
  unfold inserter. revert e.
  induction out as [|x out IH]; simpl; intros e Hy; [tauto|].
  apply IH in Hy as [Hy|Hy]; [|tauto].
  apply set_insert_In in Hy as [->|Hy]; tauto.
Qed.

Lemma inserter_keeps e out y : In y e -> In y (inserter e out).
Proof.
  unfold inserter. revert e.
  induction out as [|x out IH]; simpl; intros e Hy; [assumption|].
  apply IH. now apply set_insert_keeps.
Qed.

Lemma inserter_canons e out c :
  In c (canons (inserter e out)) <-> In c (canons e) \/ In c (canons out).
Proof.
  unfold inserter. revert e.
  induction out as [|x out IH]; simpl; intros e; [tauto|].
  rewrite IH. split.
  - intros [Hc|Hc]; [|tauto].
    apply in_map_iff in Hc as (y & <- & Hy).
    apply set_insert_In in Hy as [->|Hy]; [tauto|].
    left. now apply in_map.
  - intros [Hc|[<-|Hc]]; [| |tauto]; left.
    + apply in_map_iff in Hc as (y & <- & Hy).
      apply in_map. now apply set_insert_keeps.
    + apply set_insert_canon_In.
Qed.

Lemma inserter_nonempty e out : e <> [] \/ out <> [] -> inserter e out <> [].
Proof.
  unfold inserter. revert e.
  induction out as [|x out IH]; simpl; intros e H.
  - destruct H; congruence.
  - apply IH. left. apply set_insert_nonempty.
Qed.

(** Writing an ascending sequence into an empty set rebuilds it. *)
Lemma inserter_app e out : ascending (e ++ out) -> inserter e out = e ++ out.
Proof.
  unfold inserter. revert e.
  induction out as [|x out IH]; simpl; intros e He.
  - now rewrite app_nil_r.
  - rewrite (set_insert_above x e) by (now apply ascending_app with (t := out)).
    rewrite IH; rewrite <- app_assoc; [reflexivity|assumption].
Qed.

Lemma inserter_empty out : ascending out -> inserter [] out = out.
Proof. intros H. now apply (inserter_app []). Qed.

(** *** Evaluation through the set operations

    [f] is a test on elements; the operations preserve "some element passes"
    as long as elements they identify (equal canonical form) pass alike. *)

Section Tests.

Variable f : T -> bool.

Lemma set_insert_existsb x s :
  (forall y, In y s -> canon y = canon x -> f y = f x) ->
  existsb f (set_insert x s) = f x || existsb f s.
Proof.
  induction s as [|z s IH]; simpl; intros Hf; [reflexivity|].
  destruct (less x z) eqn:Hxz; [reflexivity|].
  destruct (less z x) eqn:Hzx; simpl.
  - rewrite IH by auto. now destruct (f x), (f z).
  - rewrite <- (Hf z) by auto using less_equiv. now destruct (f z).
Qed.

Lemma set_insert_forallb x s :
  (forall y, In y s -> canon y = canon x -> f y = f x) ->
  forallb f (set_insert x s) = f x && forallb f s.
Proof.
  induction s as [|z s IH]; simpl; intros Hf; [reflexivity|].
  destruct (less x z) eqn:Hxz; [reflexivity|].
  destruct (less z x) eqn:Hzx; simpl.
  - rewrite IH by auto. now destruct (f x), (f z).
  - rewrite <- (Hf z) by auto using less_equiv. now destruct (f z).
Qed.

Lemma set_union_existsb l r :
  (forall x y, In x l -> In y r -> canon x = canon y -> f x = f y) ->
  existsb f (set_union l r) = existsb f l || existsb f r.
Proof.
  pattern l, r. apply set_union_ind; clear l r.
  - intros r _. now rewrite set_union_nil_l.
  - intros l _. rewrite set_union_nil_r. simpl. now rewrite orb_false_r.
  - intros x l y r H1 H2 H3 Hf. rewrite set_union_cons.
    destruct (less x y) eqn:Hxy; [|destruct (less y x) eqn:Hyx]; simpl.
    + rewrite H1; simpl; [now rewrite orb_assoc|reflexivity|].
      intros; apply Hf; simpl; auto.
    + rewrite H2; simpl; [|reflexivity|reflexivity|].
      * now destruct (f x), (f y), (existsb f l).
      * intros; apply Hf; simpl; auto.
    + rewrite H3; [|reflexivity|reflexivity|].
      * rewrite <- (Hf x y) by (simpl; auto using less_equiv).
        now destruct (f x), (existsb f l).
      * intros; apply Hf; simpl; auto.
Qed.

Lemma inserter_existsb e out :
  (forall x y, In x e \/ In x out -> In y e \/ In y out ->
               canon x = canon y -> f x = f y) ->
  existsb f (inserter e out) = existsb f e || existsb f out.
Proof.
  unfold inserter. revert e.
  induction out as [|x out IH]; simpl; intros e Hf.
  - now rewrite orb_false_r.
  - rewrite IH.
    + rewrite set_insert_existsb by (intros; apply Hf; auto).
      now destruct (f x), (existsb f e).
    + intros a b Ha Hb. apply Hf.
      * destruct Ha as [Ha|Ha]; [|tauto].
        apply set_insert_In in Ha as [->|Ha]; tauto.
      * destruct Hb as [Hb|Hb]; [|tauto].
        apply set_insert_In in Hb as [->|Hb]; tauto.
Qed.

End Tests.

(** *** Uniqueness of the representation *)

Lemma ascending_same_canon s x y :
  ascending s -> In x s -> In y s -> canon x = canon y -> x = y.
Proof.
  induction s as [|z s IH]; simpl; [tauto|].
  intros [Hz Hs] [->|Hx] [->|Hy] Heq; auto.
  - specialize (Hz y Hy). unfold less in Hz.
    rewrite Heq, StdStringFacts.lt_irrefl in Hz. discriminate.
  - specialize (Hz x Hx). unfold less in Hz.
    rewrite Heq, StdStringFacts.lt_irrefl in Hz. discriminate.
Qed.

(** Two ascending lists with the same members are the same list. *)
Lemma ascending_ext s s' :
  ascending s -> ascending s' -> (forall x, In x s <-> In x s') -> s = s'.
Proof.
  revert s'. induction s as [|a s IH]; intros [|b s'] Hs Hs' Hmem.
  - reflexivity.
  - exfalso. apply (Hmem b). now left.
  - exfalso. apply (Hmem a). now left.
  - destruct Hs as [Ha Hs], Hs' as [Hb Hs'].
    assert (a = b) as ->.
    { destruct (proj1 (Hmem a) (or_introl eq_refl)) as [Hba|Hba]; [now symmetry|].
      destruct (proj2 (Hmem b) (or_introl eq_refl)) as [Hab|Hab]; [assumption|].
      pose proof (less_asym _ _ (Ha b Hab)) as Hno.
      rewrite (Hb a Hba) in Hno. discriminate. }
    f_equal. apply IH; auto.
    intros x. split; intros Hx.
    + destruct (proj1 (Hmem x) (or_intror Hx)) as [<-|Hin]; [|assumption].
      specialize (Ha b Hx). rewrite less_irrefl in Ha. discriminate.
    + destruct (proj2 (Hmem x) (or_intror Hx)) as [<-|Hin]; [|assumption].
      specialize (Hb b Hx). rewrite less_irrefl in Hb. discriminate.
Qed.

Lemma set_union_member l r x :
  ascending l -> ascending r ->
  (In x (set_union l r) <-> In x l \/ (In x r /\ ~ In (canon x) (canons l))).
Proof.
  intros Hl Hr. split.
  - intros Hx. destruct (set_union_In _ _ _ Hx) as [Hxl|Hxr]; [now left|].
    destruct (in_dec string_dec (canon x) (canons l)) as [Hin|Hout]; [|tauto].
    left. apply in_map_iff in Hin as (y & Heq & Hy).
    rewrite <- (ascending_same_canon (set_union l r) y x); auto.
    + now apply set_union_ascending.
    + now apply set_union_left.
  - intros [Hxl|[Hxr Hout]]; [now apply set_union_left|].
    destruct (set_union_right l r x Hxr) as [Hin|(y & Hy & Heq)]; [assumption|].
    exfalso. apply Hout. rewrite <- Heq. now apply in_map.
Qed.

(** An element whose canonical form is new to the set and unique in the
    written sequence ends up in the set. *)
Lemma inserter_new out : forall e x,
  In x out ->
  (forall z, In z e -> canon z <> canon x) ->
  (forall z, In z out -> canon z = canon x -> z = x) ->
  In x (inserter e out).
Proof.
  unfold inserter.
  induction out as [|a out IH]; simpl; intros e x Hx Hnew Huniq; [tauto|].
  destruct (string_dec (canon a) (canon x)) as [Heq|Hne].
  - rewrite (Huniq a) by auto.
    apply (inserter_keeps _ out). now apply set_insert_new.
  - destruct Hx as [->|Hx]; [congruence|].
    apply IH; auto.
    intros z Hz. apply set_insert_In in Hz as [->|Hz]; auto.
Qed.

Lemma inserter_member e out x :
  ascending e -> ascending out ->
  (In x (inserter e out) <-> In x e \/ (In x out /\ ~ In (canon x) (canons e))).
Proof.
  intros He Hout. split.
  - intros Hx. destruct (inserter_In _ _ _ Hx) as [Hxe|Hxo]; [now left|].
    destruct (in_dec string_dec (canon x) (canons e)) as [Hin|Hno]; [|tauto].
    left. apply in_map_iff in Hin as (y & Heq & Hy).
    rewrite <- (ascending_same_canon (inserter e out) y x); auto.
    + now apply inserter_ascending.
    + now apply inserter_keeps.
  - intros [Hxe|[Hxo Hno]]; [now apply inserter_keeps|].
    apply inserter_new; auto.
    + intros z Hz Heq. apply Hno. rewrite <- Heq. now apply in_map.
    + intros z Hz Heq. now apply (ascending_same_canon out).
Qed.

(** Writing the union of a set with another into that set gives the union. *)
Lemma inserter_set_union e tmp :
  ascending e -> ascending tmp ->
  inserter e (set_union e tmp) = set_union e tmp.
Proof.
  intros He Ht.
  pose proof (set_union_ascending _ _ He Ht) as Hu.
  apply ascending_ext; auto using inserter_ascending.
  intros x. rewrite inserter_member by assumption. split.
  - intros [Hx|[Hx _]]; [now apply set_union_left|assumption].
  - intros Hx. apply set_union_member in Hx as [Hx|[Hx Hno]]; auto.
    right. split; [|assumption].
    apply set_union_member; auto.
Qed.

(** Inserting the members of both, one after the other, is the union. *)
Lemma inserter_app_union l r :
  ascending l -> ascending r ->
  inserter [] (l ++ r) = set_union l r.
Proof.
  intros Hl Hr.
  assert (inserter [] (l ++ r) = inserter l r) as ->.
  { unfold inserter. rewrite fold_left_app.
    fold (inserter [] l). now rewrite inserter_empty. }
  apply ascending_ext; auto using inserter_ascending, set_union_ascending.
  intros x. rewrite inserter_member, set_union_member by assumption.
  reflexivity.
Qed.

(** *** The union written into its own first range *)

Lemma equivalent_refl x : equivalent canon x x = true.
Proof. unfold equivalent. now rewrite less_irrefl. Qed.

Lemma set_insert_middle before x after :
  (forall b, In b before -> less b x = true) ->
  (forall a, In a after -> less x a = true) ->
  set_insert x (before ++ after) = before ++ x :: after.
Proof.
  induction before as [|b before IH]; simpl; intros Hb Ha.
  - destruct after as [|a after]; [reflexivity|].
    simpl. now rewrite (Ha a (or_introl eq_refl)).
  - rewrite (less_asym b x) by auto. rewrite (Hb b) by auto.
    f_equal. auto.
Qed.

Lemma ascending_split before after :
  ascending (before ++ after) ->
  ascending before /\ ascending after /\
  forall b a, In b before -> In a after -> less b a = true.
Proof.
  induction before as [|b before IH]; simpl.
  - intros Ha. repeat split; [assumption|]. intros b a [].
  - intros [Hb Hrest]. destruct (IH Hrest) as (Hbef & Haft & Hlt).
    repeat split; auto.
    + intros y Hy. apply Hb, in_or_app. now left.
    + intros b' a [<-|Hb'] Ha; [|auto].
      apply Hb, in_or_app. now right.
Qed.

Lemma next_of_split before x after :
  ascending (before ++ x :: after) ->
  next_of canon x (before ++ x :: after) = hd_error after.
Proof.
  induction before as [|b before IH]; simpl.
  - intros _. now rewrite equivalent_refl.
  - intros [Hb Hrest].
    unfold equivalent at 1.
    rewrite (Hb x) by (apply in_or_app; right; now left).
    simpl. auto.
Qed.

(** Run on an ascending set, with the iterator at the head of [after] and
    everything before it below what is left of the second range, the in-place
    union leaves [before] followed by the union of [after] with the second
    range. *)
Lemma set_union_in_place_split tmp : forall fuel before after,
  ascending (before ++ after) ->
  ascending tmp ->
  (forall b t, In b before -> In t tmp -> less b t = true) ->
  List.length after + List.length tmp < fuel ->
  set_union_in_place canon fuel (before ++ after) (hd_error after) tmp =
    Some (before ++ set_union after tmp).
Proof.
  intros fuel. revert tmp.
  induction fuel as [|fuel IH]; intros tmp before after Hcur Htmp Hlt Hfuel;
    [lia|].
  destruct (ascending_split _ _ Hcur) as (Hbef & Haft & Hsep).
  destruct after as [|x after], tmp as [|y tmp]; cbn [set_union_in_place hd_error].
  - now rewrite set_union_nil_l.
  - rewrite app_nil_r in *.
    rewrite (set_insert_above y before) by (intros b Hb; apply Hlt; simpl; auto).
    destruct Htmp as [Hy Htmp].
    specialize (IH tmp (before ++ [y]) []).
    rewrite app_nil_r in IH. cbn [hd_error] in IH. rewrite IH.
    + rewrite !set_union_nil_l, <- app_assoc. reflexivity.
    + apply ascending_app_last; [assumption|].
      intros b Hb. apply Hlt; simpl; auto.
    + assumption.
    + intros b t Hb Ht. apply in_app_or in Hb as [Hb|[<-|[]]]; simpl in *; auto.
    + simpl in *. lia.
  - rewrite set_insert_present
      by (try assumption; apply in_map, in_or_app; right; now left).
    rewrite next_of_split by assumption.
    specialize (IH [] (before ++ [x]) after).
    rewrite <- app_assoc in IH. cbn [app] in IH. rewrite IH.
    + rewrite !set_union_nil_r, <- app_assoc. reflexivity.
    + assumption.
    + exact I.
    + intros b t _ [].
    + simpl in *. lia.
  - rewrite set_union_cons.
    destruct (less x y) eqn:Hxy; [|destruct (less y x) eqn:Hyx].
    + rewrite set_insert_present
        by (try assumption; apply in_map, in_or_app; right; now left).
      rewrite next_of_split by assumption.
      specialize (IH (y :: tmp) (before ++ [x]) after).
      rewrite <- app_assoc in IH. cbn [app] in IH. rewrite IH.
      * rewrite <- app_assoc. reflexivity.
      * assumption.
      * assumption.
      * intros b t Hb Ht. apply in_app_or in Hb as [Hb|[<-|[]]]; [auto|].
        destruct Ht as [<-|Ht]; [assumption|].
        eapply less_trans; [exact Hxy|]. now apply (proj1 Htmp).
      * simpl in *. lia.
    + rewrite (set_insert_middle before y (x :: after)).
      * specialize (IH tmp (before ++ [y]) (x :: after)).
        rewrite <- app_assoc in IH. cbn [app hd_error] in IH. rewrite IH.
        -- rewrite <- app_assoc. reflexivity.
        -- rewrite <- (set_insert_middle before y (x :: after)).
           ++ now apply set_insert_ascending.
           ++ intros b Hb. apply Hlt; simpl; auto.
           ++ intros a [<-|Ha]; [assumption|].
              eapply less_trans; [exact Hyx|]. now apply (proj1 Haft).
        -- apply Htmp.
        -- intros b t Hb Ht. apply in_app_or in Hb as [Hb|[<-|[]]].
           ++ apply Hlt; simpl; auto.
           ++ now apply (proj1 Htmp).
        -- simpl in *. lia.
      * intros b Hb. apply Hlt; simpl; auto.
      * intros a [<-|Ha]; [assumption|].
        eapply less_trans; [exact Hyx|]. now apply (proj1 Haft).
    + rewrite set_insert_present
        by (try assumption; apply in_map, in_or_app; right; now left).
      rewrite next_of_split by assumption.
      specialize (IH tmp (before ++ [x]) after).
      rewrite <- app_assoc in IH. cbn [app] in IH. rewrite IH.
      * rewrite <- app_assoc. reflexivity.
      * assumption.
      * apply Htmp.
      * intros b t Hb Ht. apply in_app_or in Hb as [Hb|[<-|[]]].
        -- apply Hlt; simpl; auto.
        -- rewrite (less_canon x y t) by now apply less_equiv.
           now apply (proj1 Htmp).
      * simpl in *. lia.
Qed.

(** The union of an ascending set with an ascending range, written into the
    set while it is walked, ends with the set [inserter] builds from the
    walk over the set as it was. *)
Lemma set_union_in_place_correct e tmp fuel :
  ascending e -> ascending tmp ->
  List.length e + List.length tmp < fuel ->
  set_union_in_place canon fuel e (hd_error e) tmp =
    Some (inserter e (set_union e tmp)).
Proof.
  intros He Htmp Hfuel.
  rewrite inserter_set_union by assumption.
  apply (set_union_in_place_split tmp fuel [] e); auto.
Qed.


End StdSetFacts.

(** The canonical forms of an ascending list ascend as strings. *)
Lemma ascending_canons {T : Type} (canon : T -> string) (s : list T) :
  ascending canon s -> ascending (fun c : string => c) (canons canon s).
Proof.
  induction s as [|x s IH]; simpl; [trivial|].
  intros [Hx Hs]. split; [|auto].
  intros c Hc. apply in_map_iff in Hc as (y & <- & Hy).
  exact (Hx y Hy).
Qed.

(** Ascending lists with the same canonical forms list them alike. *)
Lemma canons_ext {T : Type} (canon : T -> string) (s s' : list T) :
  ascending canon s -> ascending canon s' ->
  (forall c, In c (canons canon s) <-> In c (canons canon s')) ->
  canons canon s = canons canon s'.
Proof.
  intros Hs Hs' Hmem.
  apply (ascending_ext (fun c : string => c)); auto using ascending_canons.
Qed.

(** ** Sets whose members are told apart by their canonical forms *)

Section StdSetExact.

Context {T : Type}.
Variable canon : T -> string.
Variable P : T -> Prop.
Hypothesis exact : forall x y, P x -> P y -> canon x = canon y -> x = y.

Lemma inserter_member_exact e out x :
  (forall y, In y e \/ In y out -> P y) ->
  (In x (inserter canon e out) <-> In x e \/ In x out).
Proof.
  intros HP. split; [apply inserter_In|].
  intros Hx.
  assert (In (canon x) (canons canon (inserter canon e out))) as Hc.
  { apply inserter_canons. destruct Hx; [left|right]; now apply in_map. }
  apply in_map_iff in Hc as (z & Heq & Hz).
  rewrite <- (exact z x); auto.
  apply HP. now apply inserter_In in Hz.
Qed.

Lemma set_union_member_exact l r x :
  (forall y, In y l \/ In y r -> P y) ->
  (In x (set_union canon l r) <-> In x l \/ In x r).
Proof.
  intros HP. split; [apply set_union_In|].
  intros Hx.
  assert (In (canon x) (canons canon (set_union canon l r))) as Hc.
  { apply set_union_canons. destruct Hx; [left|right]; now apply in_map. }
  apply in_map_iff in Hc as (z & Heq & Hz).
  rewrite <- (exact z x); auto.
  apply HP. now apply set_union_In in Hz.
Qed.

End StdSetExact.


(** ** Results *)

Lemma bind_Ok {A B : Type} (c : result A) (k : A -> result B) (b : B) :
  bind c k = Ok b -> exists a, c = Ok a /\ k a = Ok b.
Proof. destruct c as [a|e|]; simpl; [eauto|discriminate|discriminate]. Qed.

Lemma bind_Err {A B : Type} (c : result A) (k : A -> result B) (e : exception) :
  bind c k = Err e -> c = Err e \/ exists a, c = Ok a /\ k a = Err e.
Proof.
  destruct c as [a|e'|]; simpl; [eauto| |discriminate].
  intros [= ->]. now left.
Qed.


Lemma call_result_Ok {A : Type} (c : call A) (a : A) :
  call_result c = Ok a <-> c = Returns a.
Proof. destruct c; simpl; split; congruence. Qed.

Lemma call_result_defined {A : Type} (c : call A) : call_result c <> Undefined.
Proof. now destruct c. Qed.

Ltac bind_inv H :=
  let a := fresh "a" in
  let Ha := fresh "H" a in
  apply bind_Ok in H as (a & Ha & H).

(** ** Trees *)

(** Induction with the hypothesis available for every child of a list node. *)
Lemma utree_induction (P : utree -> Prop) :
  (forall children, Forall P children -> P (utree_list children)) ->
  P utree_function ->
  (forall n, P (utree_int n)) ->
  (forall s, P (utree_string s)) ->
  P utree_other ->
  forall t, P t.
Proof.
  intros Hlist Hfun Hint Hstr Hother.
  fix IH 1. intros [children| |n|s|].
  - apply Hlist. induction children as [|c cs IHcs]; constructor; auto.
  - assumption.
  - apply Hint.
  - apply Hstr.
  - assumption.
Qed.

(** Induction for properties of the visitors: the hypothesis is available for
    the two operands of a node that starts with an operator code. *)
Lemma operand_induction (P : utree -> Prop) :
  (forall t,
      (forall op l r rest,
          t = utree_list (utree_int op :: l :: r :: rest) -> P l /\ P r) ->
      P t) ->
  forall t, P t.
Proof.
  intros Hstep t. induction t as [children IH| | | |] using utree_induction;
    apply Hstep; try discriminate.
  intros op l r rest [= ->].
  inversion IH as [|? ? _ IH1]; subst.
  inversion IH1 as [|? ? Hl IH2]; subst.
  inversion IH2 as [|? ? Hr _]; subst.
  now split.
Qed.

Section CompilerFacts.

Context `{Collaborators}.

(** *** The [switch] *)

Lemma switch_relational op :
  In op relational_labels -> switch op = case_relational.
Proof.
  intros Hin. unfold switch.
  replace (existsb (Z.eqb op) relational_labels) with true; [reflexivity|].
  symmetry. apply existsb_exists. exists op. split; [assumption|apply Z.eqb_refl].
Qed.

Lemma switch_relational_inv op :
  switch op = case_relational -> In op relational_labels.
Proof.
  unfold switch.
  destruct (existsb (Z.eqb op) relational_labels) eqn:Hex.
  - intros _. apply existsb_exists in Hex as (x & Hx & Heq).
    apply Z.eqb_eq in Heq. now subst.
  - destruct (op =? OR)%Z; [discriminate|]. destruct (op =? AND)%Z; discriminate.
Qed.

Lemma not_relational op :
  ~ In op relational_labels -> existsb (Z.eqb op) relational_labels = false.
Proof.
  intros Hno. destruct (existsb (Z.eqb op) relational_labels) eqn:Hex; [|reflexivity].
  exfalso. apply Hno. apply existsb_exists in Hex as (x & Hx & Heq).
  apply Z.eqb_eq in Heq. now subst.
Qed.

Lemma switch_OR : labels_distinct -> switch OR = case_or.
Proof.
  intros (Hor & _ & _). unfold switch.
  now rewrite not_relational, Z.eqb_refl.
Qed.

Lemma switch_AND : labels_distinct -> switch AND = case_and.
Proof.
  intros (_ & Hand & Hne). unfold switch.
  rewrite not_relational by assumption.
  apply Z.eqb_neq in Hne. now rewrite Hne, Z.eqb_refl.
Qed.

(** *** Evaluation *)

Lemma minterm_eval_forallb fetch m :
  minterm_eval fetch m = forallb (predicate_eval fetch) m.
Proof.
  induction m as [|p m IH]; simpl; [reflexivity|].
  rewrite IH. now destruct (predicate_eval fetch p).
Qed.

Lemma any_minterm_existsb fetch e :
  any_minterm fetch e = existsb (minterm_eval fetch) e.
Proof.
  induction e as [|m e IH]; simpl; [reflexivity|].
  rewrite IH. now destruct (minterm_eval fetch m).
Qed.

Lemma expression_eval_nonempty fetch e :
  e <> [] -> expression_eval fetch e = existsb (minterm_eval fetch) e.
Proof.
  destruct e as [|m e]; [congruence|]. intros _.
  unfold expression_eval. apply any_minterm_existsb.
Qed.

Lemma existsb_and_const {A : Type} (f : A -> bool) (c : bool) (l : list A) :
  existsb (fun x => f x && c) l = existsb f l && c.
Proof.
  induction l as [|x l IH]; simpl; [reflexivity|].
  rewrite IH. now destruct (f x), c, (existsb f l).
Qed.

(** *** Canonical strings *)

Lemma minterm_to_string_loop_concat ps : forall size i s,
  (i + N.of_nat (List.length ps) = size)%N ->
  minterm_to_string_loop size i s ps =
    (s ++ String.concat " and " (map predicate_to_string ps))%string.
Proof.
  induction ps as [|p ps IH]; intros size i s Hsize.
  - simpl. now rewrite StdStringFacts.append_nil_r.
  - cbn [minterm_to_string_loop map].
    destruct ps as [|q ps].
    + replace (N.succ i <? size)%N with false.
      * reflexivity.
      * symmetry. apply N.ltb_ge. simpl in Hsize. lia.
    + replace (N.succ i <? size)%N with true.
      * rewrite IH by (cbn [List.length] in *; lia).
        cbn [String.concat map].
        now rewrite !StdStringFacts.append_assoc.
      * symmetry. apply N.ltb_lt. cbn [List.length] in Hsize. lia.
Qed.

(** [compiled_minterm::to_string] joins the canonical forms of the predicates
    with [" and "]. *)
Lemma minterm_to_string_concat m :
  minterm_to_string m = String.concat " and " (map predicate_to_string m).
Proof.
  unfold minterm_to_string.
  now rewrite minterm_to_string_loop_concat by lia.
Qed.

Lemma minterm_to_string_single p : minterm_to_string [p] = predicate_to_string p.
Proof. now rewrite minterm_to_string_concat. Qed.

Lemma minterm_to_string_canons m m' :
  map predicate_to_string m = map predicate_to_string m' ->
  minterm_to_string m = minterm_to_string m'.
Proof. rewrite !minterm_to_string_concat. now intros ->. Qed.

Lemma expression_to_string_loop_canons ms : forall ms' s i ret,
  map minterm_to_string ms = map minterm_to_string ms' ->
  expression_to_string_loop s i ret ms = expression_to_string_loop s i ret ms'.
Proof.
  induction ms as [|m ms IH]; intros [|m' ms'] s i ret; simpl; try discriminate.
  - reflexivity.
  - intros [= -> Htl]. now apply IH.
Qed.

(** [compiled_expression::to_string] only looks at the canonical forms of the
    minterms. *)
Lemma expression_to_string_canons e e' :
  canons minterm_to_string e = canons minterm_to_string e' ->
  expression_to_string e = expression_to_string e'.
Proof.
  intros Heq. unfold expression_to_string.
  assert (List.length e = List.length e') as ->.
  { unfold canons in Heq. rewrite <- (length_map minterm_to_string e), Heq.
    apply length_map. }
  now apply expression_to_string_loop_canons.
Qed.

(** *** The visitors, one node at a time *)

Lemma expand_node m s op i1 i2 rest :
  utree_expand_conjunction m s (utree_list (utree_int op :: i1 :: i2 :: rest)) =
    match switch op with
    | case_relational =>
        attr <- utree_to_string i1 ;;
        literal <- utree_to_string i2 ;;
        p <- make_predicate attr op literal s ;;
        Ok (set_insert minterm_to_string (minterm_add p m) [])
    | case_or =>
        left <- utree_expand_conjunction m s i1 ;;
        right <- utree_expand_conjunction m s i2 ;;
        Ok (inserter minterm_to_string []
              (set_union minterm_to_string left right))
    | case_and =>
        lor <- utree_expand_conjunction m s i1 ;;
        distribute (fun lor_m => utree_expand_conjunction lor_m s i2) lor []
    | case_default =>
        Err (parse_exception ("Unexpected op:" ++ int_to_string op))
    end.
Proof. reflexivity. Qed.

Lemma compile_node s op i1 i2 rest :
  utree_compile_expression s (utree_list (utree_int op :: i1 :: i2 :: rest)) =
    match switch op with
    | case_relational =>
        attr <- utree_to_string i1 ;;
        literal <- utree_to_string i2 ;;
        p <- make_predicate attr op literal s ;;
        Ok (set_insert minterm_to_string (minterm_add p []) [])
    | case_or =>
        left <- utree_compile_expression s i1 ;;
        right <- utree_compile_expression s i2 ;;
        Ok (inserter minterm_to_string []
              (set_union minterm_to_string left right))
    | case_and =>
        left <- utree_compile_expression s i1 ;;
        distribute (fun m => utree_expand_conjunction m s i2) left []
    | case_default =>
        Err (parse_exception ("Unexpected op:" ++ int_to_string op))
    end.
Proof. reflexivity. Qed.

(** A node a visitor accepts starts with an operator code and has two further
    children. *)
Lemma expand_Ok_shape m s t e :
  utree_expand_conjunction m s t = Ok e ->
  exists op i1 i2 rest, t = utree_list (utree_int op :: i1 :: i2 :: rest).
Proof.
  destruct t as [[|i0 after_op]| | | |]; try discriminate.
  destruct i0; try discriminate.
  destruct after_op as [|i1 [|i2 rest]].
  - simpl. destruct (switch n); discriminate.
  - simpl. destruct (switch n); try discriminate;
      intros Hb; apply bind_Ok in Hb as (x & _ & Hb); discriminate.
  - eauto.
Qed.

Lemma compile_Ok_shape s t e :
  utree_compile_expression s t = Ok e ->
  exists op i1 i2 rest, t = utree_list (utree_int op :: i1 :: i2 :: rest).
Proof.
  destruct t as [[|i0 after_op]| | | |]; try discriminate.
  destruct i0; try discriminate.
  destruct after_op as [|i1 [|i2 rest]].
  - simpl. destruct (switch n); discriminate.
  - simpl. destruct (switch n); try discriminate;
      intros Hb; apply bind_Ok in Hb as (x & _ & Hb); discriminate.
  - eauto.
Qed.

(** The top-level visitor is the expanding visitor started from the empty
    minterm. *)
Lemma compile_as_expand s t :
  utree_compile_expression s t = utree_expand_conjunction [] s t.
Proof.
  induction t as [children IH| | | |] using utree_induction; try reflexivity.
  destruct children as [|i0 [|i1 after_left]]; try reflexivity.
  destruct i0; try reflexivity.
  inversion IH as [|? ? _ IHop]; subst.
  inversion IHop as [|? ? IH1 IHl]; subst.
  destruct after_left as [|i2 rest].
  - simpl. rewrite IH1. reflexivity.
  - inversion IHl as [|? ? IH2 _]; subst.
    rewrite compile_node, expand_node, IH1, IH2. reflexivity.
Qed.

(** *** The distribution loop *)

Local Abbreviation merge_into e tmp :=
  (inserter minterm_to_string e (set_union minterm_to_string e tmp)).

Lemma merge_into_In e tmp x :
  In x (merge_into e tmp) -> In x e \/ In x tmp.
Proof.
  intros Hx. apply inserter_In in Hx as [Hx|Hx]; [now left|].
  now apply set_union_In in Hx.
Qed.

Lemma merge_into_nonempty e tmp :
  e <> [] \/ tmp <> [] -> merge_into e tmp <> [].
Proof.
  intros Hne. apply inserter_nonempty.
  destruct e as [|m e]; [|left; discriminate].
  right. rewrite set_union_nil_l. destruct Hne; congruence.
Qed.

Lemma distribute_ascending visit left : forall e0 e,
  ascending minterm_to_string e0 ->
  distribute visit left e0 = Ok e ->
  ascending minterm_to_string e.
Proof.
  induction left as [|m left IH]; simpl; intros e0 e He0 Hd.
  - now injection Hd as <-.
  - bind_inv Hd. eapply IH; [|exact Hd]. now apply inserter_ascending.
Qed.

Lemma distribute_In visit left : forall e0 e x,
  distribute visit left e0 = Ok e ->
  In x e ->
  In x e0 \/ exists m tmp, In m left /\ visit m = Ok tmp /\ In x tmp.
Proof.
  induction left as [|m left IH]; simpl; intros e0 e x Hd Hx.
  - injection Hd as <-. now left.
  - bind_inv Hd. destruct (IH _ _ _ Hd Hx) as [Hin|(m' & tmp & Hm' & Hv & Hin)].
    + apply merge_into_In in Hin as [Hin|Hin]; [now left|].
      right. exists m, a. auto.
    + right. exists m', tmp. auto.
Qed.

Lemma distribute_nonempty visit left : forall e0 e,
  (forall m tmp, In m left -> visit m = Ok tmp -> tmp <> []) ->
  distribute visit left e0 = Ok e ->
  left <> [] \/ e0 <> [] ->
  e <> [].
Proof.
  induction left as [|m left IH]; simpl; intros e0 e Hv Hd Hne.
  - injection Hd as <-. destruct Hne; congruence.
  - bind_inv Hd. eapply IH; [| exact Hd |].
    + intros m' tmp Hm'. apply Hv. now right.
    + right. apply merge_into_nonempty. right. eapply Hv; eauto.
Qed.

Lemma distribute_Ok_visits visit left : forall e0 e,
  distribute visit left e0 = Ok e ->
  forall m, In m left -> exists tmp, visit m = Ok tmp.
Proof.
  induction left as [|m left IH]; simpl; intros e0 e Hd m' Hm'; [tauto|].
  bind_inv Hd. destruct Hm' as [<-|Hm']; eauto.
Qed.

Lemma distribute_Ok visit left : forall e0,
  (forall m, In m left -> exists tmp, visit m = Ok tmp) ->
  exists e, distribute visit left e0 = Ok e.
Proof.
  induction left as [|m left IH]; simpl; intros e0 Hv; [eauto|].
  destruct (Hv m (or_introl eq_refl)) as (tmp & ->). simpl.
  apply IH. intros m' Hm'. apply Hv. now right.
Qed.

(** What "some minterm passes" becomes through the loop: [f] tests a
    minterm, [g m] is what the expansion under [m] evaluates to, and [Q]
    delimits minterms on which [f] respects the canonical form. *)
Lemma distribute_existsb (f g : compiled_minterm -> bool)
      (Q : compiled_minterm -> Prop) visit left : forall e0 e,
  (forall x y, Q x -> Q y -> minterm_to_string x = minterm_to_string y -> f x = f y) ->
  (forall x, In x e0 -> Q x) ->
  (forall m tmp, In m left -> visit m = Ok tmp ->
                 (forall x, In x tmp -> Q x) /\ existsb f tmp = g m) ->
  distribute visit left e0 = Ok e ->
  existsb f e = existsb f e0 || existsb g left.
Proof.
  induction left as [|m left IH]; simpl; intros e0 e Hf He0 Hv Hd.
  - injection Hd as <-. now rewrite orb_false_r.
  - bind_inv Hd. destruct (Hv m a (or_introl eq_refl) Ha) as [Hq Hg].
    rewrite (IH (merge_into e0 a) e); auto.
    + rewrite inserter_existsb, set_union_existsb.
      * rewrite Hg. now destruct (existsb f e0), (g m).
      * intros x y Hx Hy. apply Hf; auto.
      * intros x y Hx Hy. apply Hf.
        -- destruct Hx as [Hx|Hx]; [auto|].
           apply set_union_In in Hx as [Hx|Hx]; auto.
        -- destruct Hy as [Hy|Hy]; [auto|].
           apply set_union_In in Hy as [Hy|Hy]; auto.
    + intros x Hx. apply merge_into_In in Hx as [Hx|Hx]; auto.
Qed.

(** *** Invariants of the expanding visitor *)

Lemma utree_to_string_Ok t s : utree_to_string t = Ok s -> t = utree_string s.
Proof. destruct t; simpl; congruence. Qed.

Ltac node_shape H :=
  let op := fresh "op" in
  let l := fresh "l" in
  let r := fresh "r" in
  let rest := fresh "rest" in
  destruct (expand_Ok_shape _ _ _ _ H) as (op & l & r & rest & ->);
  rewrite expand_node in H.

Ltac leaf_inv H :=
  let attr := fresh "attr" in
  let literal := fresh "literal" in
  let p := fresh "p" in
  let Ha := fresh "Hattr" in
  let Hl := fresh "Hliteral" in
  let Hp := fresh "Hp" in
  apply bind_Ok in H as (attr & Ha & H);
  apply bind_Ok in H as (literal & Hl & H);
  apply bind_Ok in H as (p & Hp & H);
  apply utree_to_string_Ok in Ha; apply utree_to_string_Ok in Hl; subst;
  injection H as <-.

Lemma singleton_ascending {T : Type} (canon : T -> string) (x : T) :
  ascending canon [x].
Proof. simpl. split; [intros y []|exact I]. Qed.

(** The expression a visitor returns is ascending: it holds no two minterms
    with the same canonical form. *)
Lemma expand_ascending s t : forall m e,
  utree_expand_conjunction m s t = Ok e -> ascending minterm_to_string e.
Proof.
  induction t as [t IH] using operand_induction. intros m e He.
  node_shape He. destruct (switch op).
  - leaf_inv He. apply singleton_ascending.
  - do 2 bind_inv He. injection He as <-.
    apply inserter_ascending. exact I.
  - bind_inv He. eapply distribute_ascending; [|exact He]. exact I.
  - discriminate.
Qed.

(** Its minterms are ascending when the base minterm is. *)
Lemma expand_minterms_ascending s t : forall m e,
  ascending predicate_to_string m ->
  utree_expand_conjunction m s t = Ok e ->
  forall m', In m' e -> ascending predicate_to_string m'.
Proof.
  induction t as [t IH] using operand_induction. intros m e Hm He m' Hm'.
  node_shape He. destruct (IH _ _ _ _ eq_refl) as [IHl IHr].
  destruct (switch op).
  - leaf_inv He. destruct Hm' as [<-|[]].
    now apply set_insert_ascending.
  - do 2 bind_inv He. injection He as <-.
    apply inserter_In in Hm' as [[]|Hm'].
    apply set_union_In in Hm' as [Hm'|Hm']; eauto.
  - bind_inv He.
    destruct (distribute_In _ _ _ _ _ He Hm') as [[]|(m0 & tmp & Hm0 & Hv & Hin)].
    eapply IHr; [|exact Hv|exact Hin]. eauto.
  - discriminate.
Qed.

(** It is never empty. *)
Lemma expand_nonempty s t : forall m e,
  utree_expand_conjunction m s t = Ok e -> e <> [].
Proof.
  induction t as [t IH] using operand_induction. intros m e He.
  node_shape He. destruct (IH _ _ _ _ eq_refl) as [IHl IHr].
  destruct (switch op).
  - leaf_inv He. discriminate.
  - do 2 bind_inv He. injection He as <-.
    apply inserter_nonempty. right.
    pose proof (IHl _ _ Ha) as Hne.
    destruct a as [|x a]; [congruence|].
    intros Hnil.
    pose proof (set_union_left minterm_to_string (x :: a) a0 x (or_introl eq_refl)) as Hin.
    rewrite Hnil in Hin. destruct Hin.
  - bind_inv He. eapply distribute_nonempty; [|exact He|].
    + intros m0 tmp _. apply IHr.
    + left. eauto.
  - discriminate.
Qed.

(** Every predicate of its minterms comes from the base minterm or from a
    comparison of the tree. *)
Lemma expand_incl s t (U : list compiled_predicate) : forall m e,
  incl m U -> incl (leaf_predicates s t) U ->
  utree_expand_conjunction m s t = Ok e ->
  forall m', In m' e -> incl m' U.
Proof.
  induction t as [t IH] using operand_induction. intros m e Hm Ht He m' Hm'.
  node_shape He. destruct (IH _ _ _ _ eq_refl) as [IHl IHr].
  cbn [leaf_predicates] in Ht.
  destruct (switch op).
  - leaf_inv He. rewrite Hp in Ht. destruct Hm' as [<-|[]].
    intros q Hq. apply set_insert_In in Hq as [->|Hq]; auto.
    apply Ht. now left.
  - apply incl_app_inv in Ht as [Htl Htr].
    do 2 bind_inv He. injection He as <-.
    apply inserter_In in Hm' as [[]|Hm'].
    apply set_union_In in Hm' as [Hm'|Hm']; eauto.
  - apply incl_app_inv in Ht as [Htl Htr].
    bind_inv He.
    destruct (distribute_In _ _ _ _ _ He Hm') as [[]|(m0 & tmp & Hm0 & Hv & Hin)].
    eapply IHr; [|exact Htr|exact Hv|exact Hin]. eauto.
  - discriminate.
Qed.

(** Whether it succeeds does not depend on the base minterm. *)
Lemma expand_compilable s t : forall m,
  (exists e, utree_expand_conjunction m s t = Ok e) <-> compilable s t = true.
Proof.
  induction t as [t IH] using operand_induction. intros m. split.
  - intros (e & He). node_shape He. destruct (IH _ _ _ _ eq_refl) as [IHl IHr].
    cbn [compilable]. destruct (switch op).
    + leaf_inv He. now rewrite Hp.
    + do 2 bind_inv He. apply andb_true_iff. split.
      * apply (IHl m). eauto.
      * apply (IHr m). eauto.
    + bind_inv He. apply andb_true_iff. split.
      * apply (IHl m). eauto.
      * pose proof (expand_nonempty _ _ _ _ Ha) as Hne.
        destruct a as [|m0 a]; [congruence|].
        destruct (distribute_Ok_visits _ _ _ _ He m0 (or_introl eq_refl)) as (tmp & Htmp).
        apply (IHr m0). eauto.
    + discriminate.
  - destruct t as [[|i0 [|i1 [|i2 rest]]]| | | |]; try discriminate;
      destruct i0; try discriminate.
    { cbn [compilable]. destruct (switch n); discriminate. }
    { cbn [compilable]. destruct (switch n); try discriminate.
      destruct i1; discriminate. }
    destruct (IH _ _ _ _ eq_refl) as [IHl IHr].
    rewrite expand_node. cbn [compilable]. destruct (switch n).
    + destruct i1; try discriminate. destruct i2; try discriminate.
      simpl. destruct (make_predicate s0 n s1 s); [|discriminate|discriminate].
      simpl. eauto.
    + intros Hc. apply andb_true_iff in Hc as [Hl Hr].
      apply (IHl m) in Hl as (L & ->). apply (IHr m) in Hr as (R & ->).
      simpl. eauto.
    + intros Hc. apply andb_true_iff in Hc as [Hl Hr].
      apply (IHl m) in Hl as (L & ->). simpl.
      apply distribute_Ok. intros m0 _. now apply IHr.
    + discriminate.
Qed.

Lemma compile_compilable s t :
  (exists e, utree_compile_expression s t = Ok e) <-> compilable s t = true.
Proof. rewrite compile_as_expand. apply expand_compilable. Qed.

Lemma compile_sets_ascending s t e :
  utree_compile_expression s t = Ok e ->
  ascending minterm_to_string e /\
  forall m, In m e -> ascending predicate_to_string m.
Proof.
  rewrite compile_as_expand. intros He. split.
  - eapply expand_ascending; eauto.
  - eapply expand_minterms_ascending; [|exact He]. exact I.
Qed.

(** *** What a compiled expression evaluates to *)

Lemma minterm_eval_single fetch p :
  minterm_eval fetch [p] = predicate_eval fetch p.
Proof. simpl. now destruct (predicate_eval fetch p). Qed.

Lemma canonical_faithful_incl U U' :
  canonical_faithful U -> incl U' U -> canonical_faithful U'.
Proof.
  intros Hf Hincl m m' Hm Hm'. apply Hf; eapply incl_tran; eauto.
Qed.

Lemma canonical_faithful_predicates U p q :
  canonical_faithful U -> In p U -> In q U ->
  predicate_to_string p = predicate_to_string q ->
  forall fetch, predicate_eval fetch p = predicate_eval fetch q.
Proof.
  intros Hf Hp Hq Heq fetch.
  rewrite <- !minterm_eval_single. apply Hf.
  - intros x [<-|[]]. assumption.
  - intros x [<-|[]]. assumption.
  - now rewrite !minterm_to_string_single.
Qed.

(** Expanding a tree under a minterm yields an expression that passes exactly
    when the minterm passes and the tree, read as a formula, holds. *)
Lemma expand_denote fetch s (U : list compiled_predicate) :
  canonical_faithful U ->
  forall t m e,
    incl m U -> incl (leaf_predicates s t) U ->
    utree_expand_conjunction m s t = Ok e ->
    existsb (minterm_eval fetch) e = minterm_eval fetch m && denote fetch s t.
Proof.
  intros Hf t.
  induction t as [t IH] using operand_induction. intros m e Hm Ht He.
  pose proof He as Hwhole.
  node_shape He. destruct (IH _ _ _ _ eq_refl) as [IHl IHr].
  cbn [leaf_predicates] in Ht. cbn [denote].
  destruct (switch op).
  - leaf_inv He. rewrite Hp in *.
    assert (In p U) as HpU by (apply Ht; now left).
    cbn [existsb]. rewrite orb_false_r. unfold minterm_add.
    rewrite !minterm_eval_forallb, set_insert_forallb.
    + apply andb_comm.
    + intros q Hq Heq. apply (canonical_faithful_predicates U); auto.
  - apply incl_app_inv in Ht as [Htl Htr].
    do 2 bind_inv He. injection He as <-.
    pose proof (expand_incl _ _ U _ _ Hm Htl Ha) as HL.
    pose proof (expand_incl _ _ U _ _ Hm Htr Ha0) as HR.
    rewrite inserter_existsb, set_union_existsb.
    + rewrite (IHl _ _ Hm Htl Ha), (IHr _ _ Hm Htr Ha0). cbn [existsb].
      now destruct (minterm_eval fetch m), (denote fetch s l), (denote fetch s r).
    + intros x y Hx Hy Heq. apply Hf; eauto.
    + intros x y [[]|Hx] [[]|Hy] Heq.
      apply set_union_In in Hx, Hy. apply Hf; [| |assumption].
      * destruct Hx; eauto.
      * destruct Hy; eauto.
  - apply incl_app_inv in Ht as [Htl Htr].
    bind_inv He.
    pose proof (expand_incl _ _ U _ _ Hm Htl Ha) as HL.
    assert (forall m0 tmp, In m0 a ->
              utree_expand_conjunction m0 s r = Ok tmp ->
              (forall x, In x tmp -> incl x U) /\
              existsb (minterm_eval fetch) tmp =
                minterm_eval fetch m0 && denote fetch s r) as Hvisit.
    { intros m0 tmp Hm0 Hv. split.
      - eapply expand_incl; [| |exact Hv]; eauto.
      - apply IHr; eauto. }
    rewrite (distribute_existsb (minterm_eval fetch)
               (fun m0 => minterm_eval fetch m0 && denote fetch s r)
               (fun x => incl x U) _ _ _ _
               (fun x y Hx Hy Heq => Hf x y Hx Hy Heq fetch)
               (fun x (Hx : In x []) => match Hx with end) Hvisit He).
    cbn [existsb orb]. rewrite existsb_and_const, (IHl _ _ Hm Htl Ha).
    now rewrite andb_assoc.
  - discriminate.
Qed.

Lemma compile_denote fetch s t e :
  canonical_faithful (leaf_predicates s t) ->
  utree_compile_expression s t = Ok e ->
  expression_eval fetch e = denote fetch s t.
Proof.
  intros Hf He. rewrite compile_as_expand in He.
  rewrite expression_eval_nonempty by (eapply expand_nonempty; eauto).
  rewrite (expand_denote fetch s _ Hf t [] e); auto using incl_refl.
  intros x [].
Qed.

(** *** Compilation when canonical forms tell conjunctions apart *)

Local Abbreviation join m n := (inserter predicate_to_string m n).

Lemma exact_predicates U :
  canonical_exact U ->
  forall p q, In p U -> In q U ->
              predicate_to_string p = predicate_to_string q -> p = q.
Proof.
  intros Hex p q Hp Hq Heq.
  assert ([p] = [q]) as [= ->]; [|reflexivity].
  apply Hex.
  - intros x [<-|[]]. assumption.
  - intros x [<-|[]]. assumption.
  - now rewrite !minterm_to_string_single.
Qed.

Lemma canonical_exact_faithful U : canonical_exact U -> canonical_faithful U.
Proof. intros Hex m m' Hm Hm' Heq fetch. now rewrite (Hex m m'). Qed.

Lemma join_member U m n x :
  canonical_exact U -> incl m U -> incl n U ->
  (In x (join m n) <-> In x m \/ In x n).
Proof.
  intros Hex Hm Hn.
  apply (inserter_member_exact predicate_to_string (fun p => In p U)
           (exact_predicates U Hex)).
  intros y [Hy|Hy]; auto.
Qed.

Lemma join_incl U m n : incl m U -> incl n U -> incl (join m n) U.
Proof.
  intros Hm Hn x Hx. apply inserter_In in Hx as [Hx|Hx]; auto.
Qed.

Lemma join_comm U m n :
  canonical_exact U ->
  ascending predicate_to_string m -> ascending predicate_to_string n ->
  incl m U -> incl n U ->
  join m n = join n m.
Proof.
  intros Hex Ham Han Hm Hn.
  apply (ascending_ext predicate_to_string); auto using inserter_ascending.
  intros x. rewrite (join_member U m n), (join_member U n m) by assumption.
  tauto.
Qed.

Lemma join_assoc U m a b :
  canonical_exact U ->
  ascending predicate_to_string m -> ascending predicate_to_string a ->
  incl m U -> incl a U -> incl b U ->
  join (join m a) b = join m (join a b).
Proof.
  intros Hex Ham Haa Hm Ha Hb.
  apply (ascending_ext predicate_to_string); auto using inserter_ascending.
  intros x.
  rewrite (join_member U (join m a) b), (join_member U m (join a b)),
    (join_member U m a), (join_member U a b); auto using join_incl.
  tauto.
Qed.

Lemma merge_into_member_exact U e tmp x :
  canonical_exact U ->
  (forall y, In y e \/ In y tmp -> incl y U) ->
  (In x (merge_into e tmp) <-> In x e \/ In x tmp).
Proof.
  intros Hex HU.
  rewrite (inserter_member_exact minterm_to_string (fun y => incl y U) Hex).
  - rewrite (set_union_member_exact minterm_to_string (fun y => incl y U) Hex)
      by assumption.
    tauto.
  - intros y [Hy|Hy]; [auto|].
    apply set_union_In in Hy. auto.
Qed.

Lemma union_member_exact U L R x :
  canonical_exact U ->
  (forall y, In y L \/ In y R -> incl y U) ->
  (In x (inserter minterm_to_string [] (set_union minterm_to_string L R)) <->
   In x L \/ In x R).
Proof.
  intros Hex HU.
  rewrite (inserter_member_exact minterm_to_string (fun y => incl y U) Hex).
  - rewrite (set_union_member_exact minterm_to_string (fun y => incl y U) Hex)
      by assumption.
    simpl. tauto.
  - intros y [[]|Hy]. apply set_union_In in Hy. auto.
Qed.

Lemma distribute_member_exact U visit left : forall e0 e x,
  canonical_exact U ->
  (forall y, In y e0 -> incl y U) ->
  (forall m tmp y, In m left -> visit m = Ok tmp -> In y tmp -> incl y U) ->
  distribute visit left e0 = Ok e ->
  (In x e <->
   In x e0 \/ exists m tmp, In m left /\ visit m = Ok tmp /\ In x tmp).
Proof.
  induction left as [|m left IH]; simpl; intros e0 e x Hex He0 Hv Hd.
  - injection Hd as <-. split; [tauto|].
    intros [Hx|(m & tmp & [] & _)]. assumption.
  - bind_inv Hd.
    assert (forall y, In y e0 \/ In y a -> incl y U) as HU.
    { intros y [Hy|Hy]; [auto|]. eapply Hv; eauto. }
    assert (forall y, In y (merge_into e0 a) -> incl y U) as HU1.
    { intros y Hy. apply HU. now apply merge_into_In in Hy. }
    assert (forall m' tmp y, In m' left -> visit m' = Ok tmp -> In y tmp ->
                             incl y U) as Hv1.
    { intros m' tmp y Hm'. apply Hv. now right. }
    rewrite (IH _ _ x Hex HU1 Hv1 Hd).
    rewrite (merge_into_member_exact U) by assumption.
    split.
    + intros [[Hx|Hx]|(m' & tmp & Hm' & Htmp & Hx)]; [tauto| |].
      * right. exists m, a. auto.
      * right. exists m', tmp. auto.
    + intros [Hx|(m' & tmp & [<-|Hm'] & Htmp & Hx)]; [tauto| |].
      * left. right. congruence.
      * right. exists m', tmp. auto.
Qed.

(** Expanding a tree under [m] yields the joins of [m] with the minterms the
    tree compiles to. *)
Lemma expand_members s U :
  canonical_exact U ->
  forall t m e c,
    ascending predicate_to_string m ->
    incl m U -> incl (leaf_predicates s t) U ->
    utree_expand_conjunction m s t = Ok e ->
    utree_expand_conjunction [] s t = Ok c ->
    forall x, In x e <-> exists n, In n c /\ x = join m n.
Proof.
  intros Hex t.
  induction t as [t IH] using operand_induction.
  intros m e c Ham Hm Ht He Hc x.
  node_shape He. rewrite expand_node in Hc.
  destruct (IH _ _ _ _ eq_refl) as [IHl IHr].
  cbn [leaf_predicates] in Ht.
  destruct (switch op).
  - leaf_inv He. apply bind_Ok in Hc as (a1 & Ha1 & Hc).
    apply bind_Ok in Hc as (a2 & Ha2 & Hc).
    apply bind_Ok in Hc as (p' & Hp' & Hc).
    simpl in Ha1, Ha2. injection Ha1 as <-. injection Ha2 as <-.
    rewrite Hp in Hp'. injection Hp' as <-. injection Hc as <-.
    simpl. split.
    + intros [<-|[]]. exists [p]. auto.
    + intros (n & [<-|[]] & ->). now left.
  - apply incl_app_inv in Ht as [Htl Htr].
    do 2 bind_inv He. do 2 bind_inv Hc.
    injection He as <-. injection Hc as <-.
    assert (incl [] U) as Hnil by (intros y []).
    pose proof (expand_incl _ _ U _ _ Hm Htl Ha) as HL.
    pose proof (expand_incl _ _ U _ _ Hm Htr Ha0) as HR.
    pose proof (expand_incl _ _ U _ _ Hnil Htl Ha1) as HcL.
    pose proof (expand_incl _ _ U _ _ Hnil Htr Ha2) as HcR.
    assert (forall y, In y a \/ In y a0 -> incl y U) as HU1
        by (intros y [Hy|Hy]; eauto).
    assert (forall y, In y a1 \/ In y a2 -> incl y U) as HU2
        by (intros y [Hy|Hy]; eauto).
    rewrite (union_member_exact U a a0 x Hex HU1).
    rewrite (IHl m a a1 Ham Hm Htl Ha Ha1 x), (IHr m a0 a2 Ham Hm Htr Ha0 Ha2 x).
    split.
    + intros [(n & Hn & ->)|(n & Hn & ->)]; exists n; (split; [|reflexivity]);
        apply (union_member_exact U a1 a2 n Hex HU2); auto.
    + intros (n & Hn & ->).
      apply (union_member_exact U a1 a2 n Hex HU2) in Hn as [Hn|Hn]; eauto.
  - apply incl_app_inv in Ht as [Htl Htr].
    bind_inv He. bind_inv Hc.
    assert (incl [] U) as Hnil by (intros y []).
    pose proof (expand_incl _ _ U _ _ Hm Htl Ha) as HL.
    pose proof (expand_incl _ _ U _ _ Hnil Htl Ha0) as HcL.
    pose proof (expand_minterms_ascending _ _ _ _ Ham Ha) as HaL.
    pose proof (expand_minterms_ascending _ _ [] _ I Ha0) as HacL.
    assert (exists cr, utree_expand_conjunction [] s r = Ok cr) as (cr & Hcr).
    { pose proof (expand_nonempty _ _ _ _ Ha0) as Hne.
      destruct a0 as [|n0 a0]; [congruence|].
      destruct (distribute_Ok_visits _ _ _ _ Hc n0 (or_introl eq_refl)) as (tmp & Htmp).
      apply (expand_compilable s r []), (expand_compilable s r n0). eauto. }
    pose proof (expand_incl _ _ U _ _ Hnil Htr Hcr) as Hcrs.
    pose proof (expand_minterms_ascending _ _ [] _ I Hcr) as Hacr.
    assert (forall y : compiled_minterm, In y [] -> incl y U) as Hempty
        by (intros y []).
    assert (forall m0 tmp y, In m0 a ->
              utree_expand_conjunction m0 s r = Ok tmp -> In y tmp -> incl y U)
      as Hvis.
    { intros m0 tmp y Hm0 Htmp. eapply expand_incl; [| |exact Htmp]; eauto. }
    assert (forall m0 tmp y, In m0 a0 ->
              utree_expand_conjunction m0 s r = Ok tmp -> In y tmp -> incl y U)
      as Hvis0.
    { intros m0 tmp y Hm0 Htmp. eapply expand_incl; [| |exact Htmp]; eauto. }
    pose proof (fun y =>
                  distribute_member_exact U
                    (fun lor_m => utree_expand_conjunction lor_m s r)
                    a [] e y Hex Hempty Hvis He) as Hin_e.
    pose proof (fun y =>
                  distribute_member_exact U
                    (fun lor_m => utree_expand_conjunction lor_m s r)
                    a0 [] c y Hex Hempty Hvis0 Hc) as Hin_c.
    rewrite Hin_e. split.
    + intros [[]|(m' & tmp & Hm' & Htmp & Hx)].
      apply (IHl m a a0 Ham Hm Htl Ha Ha0) in Hm' as (nl & Hnl & ->).
      apply (IHr (join m nl) tmp cr
               (inserter_ascending predicate_to_string m nl Ham)
               (join_incl U m nl Hm (HcL nl Hnl)) Htr Htmp Hcr)
        in Hx as (nr & Hnr & ->).
      exists (join nl nr). split.
      * apply Hin_c. right.
        destruct (distribute_Ok_visits _ _ _ _ Hc nl Hnl) as (tmp' & Htmp').
        exists nl, tmp'. repeat split; auto.
        apply (IHr nl tmp' cr); eauto.
      * apply (join_assoc U); eauto.
    + intros (n & Hn & ->).
      apply Hin_c in Hn.
      destruct Hn as [[]|(nl & tmp' & Hnl & Htmp' & Hn)].
      apply (IHr nl tmp' cr) in Hn as (nr & Hnr & ->); eauto.
      right.
      assert (In (join m nl) a) as Hm'.
      { apply (IHl m a a0 Ham Hm Htl Ha Ha0). eauto. }
      destruct (distribute_Ok_visits _ _ _ _ He _ Hm') as (tmp & Htmp).
      exists (join m nl), tmp. repeat split; auto.
      apply (IHr (join m nl) tmp cr
               (inserter_ascending predicate_to_string m nl Ham)
               (join_incl U m nl Hm (HcL nl Hnl)) Htr Htmp Hcr).
      exists nr. split; [assumption|].
      symmetry. apply (join_assoc U); eauto.
  - discriminate.
Qed.

(** *** The loops with the union run in place *)

Lemma distribute_in_place_correct visit left : forall e0,
  ascending minterm_to_string e0 ->
  (forall m tmp, visit m = Ok tmp -> ascending minterm_to_string tmp) ->
  distribute_in_place visit left e0 = Some (distribute visit left e0).
Proof.
  induction left as [|m left IH]; simpl; intros e0 He0 Hv; [reflexivity|].
  destruct (visit m) as [tmp|x|] eqn:Hm; simpl; [|reflexivity|reflexivity].
  unfold merge_in_place.
  rewrite set_union_in_place_correct by (eauto; lia).
  apply IH; [|assumption]. now apply inserter_ascending.
Qed.

(** Both [AND] loops of the source, each starting from the empty expression
    and merging in place, compute what [distribute] computes. *)
Lemma and_loops_in_place s r left :
  distribute_in_place (fun m => utree_expand_conjunction m s r) left [] =
    Some (distribute (fun m => utree_expand_conjunction m s r) left []).
Proof.
  apply distribute_in_place_correct; [exact I|].
  intros m tmp. apply expand_ascending.
Qed.

(** *** Trees built by the grammar *)

Lemma compilable_and_node s l r :
  labels_distinct ->
  compilable s (and_node l r) = compilable s l && compilable s r.
Proof. intros Hd. unfold and_node. cbn [compilable]. now rewrite switch_AND. Qed.

Lemma compilable_or_node s l r :
  labels_distinct ->
  compilable s (or_node l r) = compilable s l && compilable s r.
Proof. intros Hd. unfold or_node. cbn [compilable]. now rewrite switch_OR. Qed.

Lemma denote_and_node fetch s l r :
  labels_distinct ->
  denote fetch s (and_node l r) = denote fetch s l && denote fetch s r.
Proof. intros Hd. unfold and_node. cbn [denote]. now rewrite switch_AND. Qed.

Lemma denote_or_node fetch s l r :
  labels_distinct ->
  denote fetch s (or_node l r) = denote fetch s l || denote fetch s r.
Proof. intros Hd. unfold or_node. cbn [denote]. now rewrite switch_OR. Qed.

Lemma leaf_predicates_and_node s l r :
  labels_distinct ->
  leaf_predicates s (and_node l r) = leaf_predicates s l ++ leaf_predicates s r.
Proof. intros Hd. unfold and_node. cbn [leaf_predicates]. now rewrite switch_AND. Qed.

Lemma leaf_predicates_or_node s l r :
  labels_distinct ->
  leaf_predicates s (or_node l r) = leaf_predicates s l ++ leaf_predicates s r.
Proof. intros Hd. unfold or_node. cbn [leaf_predicates]. now rewrite switch_OR. Qed.

Lemma compile_or_node s l r L R :
  labels_distinct ->
  utree_compile_expression s l = Ok L ->
  utree_compile_expression s r = Ok R ->
  utree_compile_expression s (or_node l r) =
    Ok (inserter minterm_to_string [] (set_union minterm_to_string L R)).
Proof.
  intros Hd Hl Hr. unfold or_node.
  now rewrite compile_node, switch_OR, Hl, Hr.
Qed.

Lemma compile_and_node s l r L :
  labels_distinct ->
  utree_compile_expression s l = Ok L ->
  utree_compile_expression s (and_node l r) =
    distribute (fun m => utree_expand_conjunction m s r) L [].
Proof.
  intros Hd Hl. unfold and_node.
  now rewrite compile_node, switch_AND, Hl.
Qed.

Lemma compile_comparison_node s op attr literal :
  In op relational_labels ->
  utree_compile_expression s (comparison_node op attr literal) =
    p <- make_predicate attr op literal s ;; Ok [[p]].
Proof.
  intros Hop. unfold comparison_node.
  rewrite compile_node, switch_relational by assumption. reflexivity.
Qed.

Lemma expand_comparison_node m s op attr literal :
  In op relational_labels ->
  utree_expand_conjunction m s (comparison_node op attr literal) =
    p <- make_predicate attr op literal s ;; Ok [minterm_add p m].
Proof.
  intros Hop. unfold comparison_node.
  rewrite expand_node, switch_relational by assumption. reflexivity.
Qed.

(** *** Swapping the operands of an [AND] *)

Lemma map_injective_on {A B : Type} (f : A -> B) (U : list A) (l : list A) :
  forall l',
    (forall x y, In x U -> In y U -> f x = f y -> x = y) ->
    incl l U -> incl l' U -> map f l = map f l' -> l = l'.
Proof.
  induction l as [|x l IH]; intros [|x' l'] Hinj Hl Hl'; simpl; try discriminate.
  - reflexivity.
  - intros [= Hx Htl].
    apply incl_cons_inv in Hl as [Hx1 Hl]. apply incl_cons_inv in Hl' as [Hx2 Hl'].
    f_equal; auto.
Qed.

(** The minterms of a compiled [AND] are the joins of a minterm of the left
    operand with a minterm of the right operand. *)
Lemma and_node_members s U A B cA cB e x :
  labels_distinct ->
  canonical_exact U ->
  incl (leaf_predicates s A) U -> incl (leaf_predicates s B) U ->
  utree_compile_expression s A = Ok cA ->
  utree_compile_expression s B = Ok cB ->
  utree_compile_expression s (and_node A B) = Ok e ->
  (In x e <-> exists a b, In a cA /\ In b cB /\ x = join a b).
Proof.
  intros Hd Hex HA HB HcA HcB He.
  rewrite (compile_and_node s A B cA Hd HcA) in He.
  rewrite compile_as_expand in HcA, HcB.
  assert (incl [] U) as Hnil by (intros y []).
  pose proof (expand_incl _ _ U _ _ Hnil HA HcA) as HinA.
  pose proof (expand_minterms_ascending _ _ [] _ I HcA) as HascA.
  assert (forall y : compiled_minterm, In y [] -> incl y U) as Hempty
      by (intros y []).
  assert (forall m0 tmp y, In m0 cA ->
            utree_expand_conjunction m0 s B = Ok tmp -> In y tmp -> incl y U)
    as Hvis.
  { intros m0 tmp y Hm0 Htmp. eapply expand_incl; [| |exact Htmp]; eauto. }
  rewrite (distribute_member_exact U
             (fun m => utree_expand_conjunction m s B) cA [] e x
             Hex Hempty Hvis He).
  split.
  - intros [[]|(a & tmp & Ha & Htmp & Hx)].
    apply (expand_members s U Hex B a tmp cB (HascA a Ha) (HinA a Ha) HB Htmp HcB)
      in Hx as (b & Hb & ->).
    eauto.
  - intros (a & b & Ha & Hb & ->). right.
    destruct (distribute_Ok_visits _ _ _ _ He a Ha) as (tmp & Htmp).
    exists a, tmp. repeat split; auto.
    apply (expand_members s U Hex B a tmp cB (HascA a Ha) (HinA a Ha) HB Htmp HcB).
    eauto.
Qed.

(** With canonical forms that tell conjunctions apart, the operands of an
    [AND] can be swapped: both orders compile to the same expression. *)
Lemma and_node_commutes s A B cA cB :
  labels_distinct ->
  canonical_exact (leaf_predicates s A ++ leaf_predicates s B) ->
  utree_compile_expression s A = Ok cA ->
  utree_compile_expression s B = Ok cB ->
  exists e,
    utree_compile_expression s (and_node A B) = Ok e /\
    utree_compile_expression s (and_node B A) = Ok e.
Proof.
  intros Hd Hex HcA HcB.
  set (U := leaf_predicates s A ++ leaf_predicates s B) in *.
  assert (incl (leaf_predicates s A) U) as HA by (apply incl_appl, incl_refl).
  assert (incl (leaf_predicates s B) U) as HB by (apply incl_appr, incl_refl).
  assert (exists e1, utree_compile_expression s (and_node A B) = Ok e1)
    as (e1 & He1).
  { apply compile_compilable. rewrite compilable_and_node by assumption.
    rewrite !(proj1 (compile_compilable _ _)); eauto. }
  assert (exists e2, utree_compile_expression s (and_node B A) = Ok e2)
    as (e2 & He2).
  { apply compile_compilable. rewrite compilable_and_node by assumption.
    rewrite !(proj1 (compile_compilable _ _)); eauto. }
  exists e1. split; [assumption|]. rewrite He2. f_equal.
  destruct (compile_sets_ascending _ _ _ He1) as [Hasc1 _].
  destruct (compile_sets_ascending _ _ _ He2) as [Hasc2 _].
  destruct (compile_sets_ascending _ _ _ HcA) as [_ HascA].
  destruct (compile_sets_ascending _ _ _ HcB) as [_ HascB].
  assert (incl [] U) as Hnil by (intros y []).
  pose proof HcA as HcA'. pose proof HcB as HcB'.
  rewrite compile_as_expand in HcA', HcB'.
  pose proof (expand_incl _ _ U _ _ Hnil HA HcA') as HinA.
  pose proof (expand_incl _ _ U _ _ Hnil HB HcB') as HinB.
  apply (ascending_ext minterm_to_string); auto.
  intros x.
  rewrite (and_node_members s U B A cB cA e2 x Hd Hex HB HA HcB HcA He2).
  rewrite (and_node_members s U A B cA cB e1 x Hd Hex HA HB HcA HcB He1).
  split.
  - intros (b & a & Hb & Ha & ->). exists a, b. repeat split; auto.
    apply (join_comm U); auto.
  - intros (a & b & Ha & Hb & ->). exists b, a. repeat split; auto.
    apply (join_comm U); auto.
Qed.

(** Tokens, no two alike, tell conjunctions apart. *)
Lemma tokens_exact (ps : list compiled_predicate) :
  (forall p, In p ps -> StdString.token (predicate_to_string p) = true) ->
  (forall p q, In p ps -> In q ps ->
               predicate_to_string p = predicate_to_string q -> p = q) ->
  canonical_exact ps.
Proof.
  intros Htok Hinj m m' Hm Hm' Heq.
  rewrite !minterm_to_string_concat in Heq.
  apply StdStringFacts.concat_tokens_inj in Heq.
  - exact (map_injective_on predicate_to_string ps m m' Hinj Hm Hm' Heq).
  - apply Forall_forall. intros c Hc. apply in_map_iff in Hc as (p & <- & Hp). auto.
  - apply Forall_forall. intros c Hc. apply in_map_iff in Hc as (p & <- & Hp). auto.
Qed.

(** Predicates whose canonical forms are tokens, no two alike, have faithful
    canonical forms. *)
Lemma tokens_faithful (ps : list compiled_predicate) :
  (forall p, In p ps -> StdString.token (predicate_to_string p) = true) ->
  (forall p q, In p ps -> In q ps ->
               predicate_to_string p = predicate_to_string q -> p = q) ->
  canonical_faithful ps.
Proof. intros Htok Hinj. now apply canonical_exact_faithful, tokens_exact. Qed.

(** ** The claims *)

(** C1, as amended. For a tree [AND(A, OR(B, C))] whose parts compile, over
    comparisons whose canonical forms are faithful (conjunctions of them that
    print alike evaluate alike), the compiled tree passes a record exactly
    when [A]'s compiled form passes it and [B]'s or [C]'s does; the same holds
    for a snapshot and raw data. *)
Theorem distribution_correct (schema : schema_t) (A B C : utree)
        (eA eB eC : compiled_expression) :
  labels_distinct ->
  canonical_faithful (leaf_predicates schema (and_node A (or_node B C))) ->
  compile_expression A schema = Ok eA ->
  compile_expression B schema = Ok eB ->
  compile_expression C schema = Ok eC ->
  exists e,
    compile_expression (and_node A (or_node B C)) schema = Ok e /\
    (forall r,
        expression_test e r =
          expression_test eA r && (expression_test eB r || expression_test eC r)) /\
    (forall snap data,
        expression_test_snapshot e snap data =
          expression_test_snapshot eA snap data &&
            (expression_test_snapshot eB snap data ||
               expression_test_snapshot eC snap data)).
Proof.
  unfold compile_expression. intros Hd Hf HA HB HC.
  assert (compilable schema (and_node A (or_node B C)) = true) as Hc.
  { rewrite compilable_and_node, compilable_or_node by assumption.
    rewrite !(proj1 (compile_compilable _ _)); eauto. }
  apply compile_compilable in Hc as (e & He). exists e. split; [assumption|].
  pose proof Hf as Hparts.
  rewrite leaf_predicates_and_node, leaf_predicates_or_node in Hparts by assumption.
  assert (forall fetch,
             expression_eval fetch e =
               expression_eval fetch eA &&
                 (expression_eval fetch eB || expression_eval fetch eC)) as Heval.
  { intros fetch.
    rewrite (compile_denote fetch schema (and_node A (or_node B C)) e Hf He).
    rewrite denote_and_node, denote_or_node by assumption.
    rewrite (compile_denote fetch schema A eA), (compile_denote fetch schema B eB),
      (compile_denote fetch schema C eC); auto;
      eapply canonical_faithful_incl; try exact Hparts;
      auto using incl_appl, incl_appr, incl_refl. }
  split; intros; apply Heval.
Qed.


Lemma minterm_add_same p : minterm_add p [p] = [p].
Proof.
  unfold minterm_add. simpl. now rewrite less_irrefl.
Qed.

Lemma set_union_same (m : compiled_minterm) :
  set_union minterm_to_string [m] [m] = [m].
Proof. rewrite set_union_cons, less_irrefl. now rewrite set_union_nil_l. Qed.

(** C2. For a comparison that compiles, to the predicate [p],
    [AND(x, x)] compiles to the single minterm holding the single predicate
    [p], and [OR(x, x)] compiles to a single minterm. *)
Theorem duplicate_operands_collapse (schema : schema_t) (op : Z)
        (attr literal : string) (e : compiled_expression) :
  let x := comparison_node op attr literal in
  labels_distinct ->
  In op relational_labels ->
  compile_expression x schema = Ok e ->
  exists p,
    make_predicate attr op literal schema = Ok p /\
    e = [[p]] /\
    compile_expression (and_node x x) schema = Ok [[p]] /\
    compile_expression (or_node x x) schema = Ok [[p]].
Proof.
  intros x Hd Hop. unfold compile_expression, x.
  rewrite compile_comparison_node by assumption.
  intros He. bind_inv He. injection He as <-.
  exists a. repeat split; [assumption| |].
  - rewrite (compile_and_node schema _ _ [[a]]); auto.
    + cbn [distribute]. rewrite expand_comparison_node, Ha by assumption.
      cbn [bind]. rewrite minterm_add_same, set_union_nil_l. reflexivity.
    + rewrite compile_comparison_node, Ha by assumption. reflexivity.
  - rewrite (compile_or_node schema _ _ [[a]] [[a]]); auto.
    + now rewrite set_union_same.
    + rewrite compile_comparison_node, Ha by assumption. reflexivity.
    + rewrite compile_comparison_node, Ha by assumption. reflexivity.
Qed.

(** C3. The empty compiled expression passes every record and every
    snapshot with raw data. *)
Theorem empty_expression_always_matches :
  (forall r : record_t, expression_test [] r = true) /\
  (forall (snap : schema_snapshot) (data : raw_data),
      expression_test_snapshot [] snap data = true).
Proof. split; reflexivity. Qed.

(** Swapping the operands of an [OR] leaves the canonical forms of the
    compiled minterms, and so the canonical string, unchanged. *)
Lemma or_node_commutes s A B eA eB :
  labels_distinct ->
  utree_compile_expression s A = Ok eA ->
  utree_compile_expression s B = Ok eB ->
  exists e1 e2,
    utree_compile_expression s (or_node A B) = Ok e1 /\
    utree_compile_expression s (or_node B A) = Ok e2 /\
    canons minterm_to_string e1 = canons minterm_to_string e2.
Proof.
  intros Hd HA HB.
  rewrite (compile_or_node s A B eA eB), (compile_or_node s B A eB eA) by assumption.
  do 2 eexists. repeat split.
  apply canons_ext; try (apply inserter_ascending; exact I).
  intros c. rewrite !inserter_canons, !set_union_canons. simpl. tauto.
Qed.

Lemma minterm_add_swap p q :
  minterm_to_string (minterm_add q [p]) = minterm_to_string (minterm_add p [q]).
Proof.
  unfold minterm_add. simpl.
  destruct (less predicate_to_string q p) eqn:Hqp.
  - now rewrite (less_asym _ _ _ Hqp).
  - destruct (less predicate_to_string p q) eqn:Hpq; [reflexivity|].
    apply minterm_to_string_canons. simpl. f_equal.
    now apply (less_equiv predicate_to_string).
Qed.

(** A set of minterms renders alike whatever the order its members were
    inserted in. *)
Lemma insertion_order_irrelevant (l l' : list compiled_minterm) :
  (forall c, In c (canons minterm_to_string l) <->
             In c (canons minterm_to_string l')) ->
  expression_to_string (inserter minterm_to_string [] l) =
    expression_to_string (inserter minterm_to_string [] l').
Proof.
  intros Hmem. apply expression_to_string_canons.
  apply canons_ext; try (apply inserter_ascending; exact I).
  intros c. rewrite !inserter_canons, Hmem. reflexivity.
Qed.

(** With canonical forms that tell conjunctions apart, [OR(A, B)] and
    [OR(B, A)] compile to the same expression. *)
Lemma or_node_commutes_exact s A B cA cB :
  labels_distinct ->
  canonical_exact (leaf_predicates s A ++ leaf_predicates s B) ->
  utree_compile_expression s A = Ok cA ->
  utree_compile_expression s B = Ok cB ->
  exists e,
    utree_compile_expression s (or_node A B) = Ok e /\
    utree_compile_expression s (or_node B A) = Ok e.
Proof.
  intros Hd Hex HcA HcB.
  set (U := leaf_predicates s A ++ leaf_predicates s B) in *.
  rewrite (compile_or_node s A B cA cB), (compile_or_node s B A cB cA)
    by assumption.
  eexists. split; [reflexivity|]. f_equal.
  assert (incl [] U) as Hnil by (intros y []).
  rewrite compile_as_expand in HcA, HcB.
  assert (forall y, In y cA -> incl y U) as HinA.
  { apply (expand_incl s A U [] cA); auto. apply incl_appl, incl_refl. }
  assert (forall y, In y cB -> incl y U) as HinB.
  { apply (expand_incl s B U [] cB); auto. apply incl_appr, incl_refl. }
  apply (ascending_ext minterm_to_string);
    try (apply inserter_ascending; exact I).
  intros x.
  rewrite (union_member_exact U cB cA x Hex) by (intros y [Hy|Hy]; auto).
  rewrite (union_member_exact U cA cB x Hex) by (intros y [Hy|Hy]; auto).
  tauto.
Qed.

(** C4. For two comparisons that compile, [AND(a, b)] and [AND(b, a)]
    compile to expressions with the same canonical string, and so do
    [OR(a, b)] and [OR(b, a)]. More generally [OR(A, B)] and [OR(B, A)] do for
    any operands that compile; the set built from a collection of minterms
    renders alike whatever the order they are inserted in; and [AND(A, B)]
    and [AND(B, A)] compile to the same expression when the canonical forms
    tell the conjunctions of their comparisons apart, and so do [OR(A, B)]
    and [OR(B, A)]. *)
Theorem canonical_string_commutes (schema : schema_t)
        (op_a : Z) (attr_a literal_a : string)
        (op_b : Z) (attr_b literal_b : string)
        (ea eb : compiled_expression)
        (A B : utree) (eA eB : compiled_expression) :
  let a := comparison_node op_a attr_a literal_a in
  let b := comparison_node op_b attr_b literal_b in
  labels_distinct ->
  In op_a relational_labels ->
  In op_b relational_labels ->
  compile_expression a schema = Ok ea ->
  compile_expression b schema = Ok eb ->
  compile_expression A schema = Ok eA ->
  compile_expression B schema = Ok eB ->
  (exists e1 e2,
      compile_expression (and_node a b) schema = Ok e1 /\
      compile_expression (and_node b a) schema = Ok e2 /\
      expression_to_string e1 = expression_to_string e2) /\
  (exists e1 e2,
      compile_expression (or_node a b) schema = Ok e1 /\
      compile_expression (or_node b a) schema = Ok e2 /\
      expression_to_string e1 = expression_to_string e2) /\
  (exists e1 e2,
      compile_expression (or_node A B) schema = Ok e1 /\
      compile_expression (or_node B A) schema = Ok e2 /\
      expression_to_string e1 = expression_to_string e2) /\
  (forall l l' : list compiled_minterm,
      (forall c, In c (canons minterm_to_string l) <->
                 In c (canons minterm_to_string l')) ->
      expression_to_string (inserter minterm_to_string [] l) =
        expression_to_string (inserter minterm_to_string [] l')) /\
  (canonical_exact (leaf_predicates schema A ++ leaf_predicates schema B) ->
   exists e,
     compile_expression (and_node A B) schema = Ok e /\
     compile_expression (and_node B A) schema = Ok e) /\
  (canonical_exact (leaf_predicates schema A ++ leaf_predicates schema B) ->
   exists e,
     compile_expression (or_node A B) schema = Ok e /\
     compile_expression (or_node B A) schema = Ok e).
Proof.
  intros a b Hd Hopa Hopb. unfold compile_expression. intros Ha Hb HA HB.
  split; [|split; [|split; [|split; [|split]]]].
  - pose proof Ha as Ha'. pose proof Hb as Hb'. unfold a, b in Ha', Hb'.
    rewrite compile_comparison_node in Ha', Hb' by assumption.
    apply bind_Ok in Ha' as (p & Hp & [= <-]).
    apply bind_Ok in Hb' as (q & Hq & [= <-]).
    rewrite (compile_and_node schema a b [[p]]),
      (compile_and_node schema b a [[q]]) by assumption.
    cbn [distribute]. unfold a, b.
    rewrite !expand_comparison_node, Hp, Hq by assumption.
    cbn [bind]. rewrite !set_union_nil_l.
    do 2 eexists. repeat split.
    apply expression_to_string_canons. simpl. f_equal.
    apply minterm_add_swap.
  - destruct (or_node_commutes schema a b ea eb Hd Ha Hb)
      as (e1 & e2 & H1 & H2 & Heq).
    exists e1, e2. auto using expression_to_string_canons.
  - destruct (or_node_commutes schema A B eA eB Hd HA HB)
      as (e1 & e2 & H1 & H2 & Heq).
    exists e1, e2. auto using expression_to_string_canons.
  - apply insertion_order_irrelevant.
  - intros Hex. exact (and_node_commutes schema A B eA eB Hd Hex HA HB).
  - intros Hex. exact (or_node_commutes_exact schema A B eA eB Hd Hex HA HB).
Qed.

(** *** Where the visitors' behaviour is defined, and where they throw *)








Lemma minterm_of_ascending ps : ascending predicate_to_string (minterm_of ps).
Proof.
  unfold minterm_of.
  change (ascending predicate_to_string (inserter predicate_to_string [] ps)).
  apply inserter_ascending. exact I.
Qed.

Lemma minterm_eval_trace_result fetch m :
  snd (minterm_eval_trace fetch m) = minterm_eval fetch m.
Proof.
  induction m as [|p m IH]; simpl; [reflexivity|].
  destruct (predicate_eval fetch p); simpl; [|reflexivity].
  now destruct (minterm_eval_trace fetch m).
Qed.

Lemma minterm_eval_trace_stops fetch before : forall p after,
  forallb (predicate_eval fetch) before = true ->
  predicate_eval fetch p = false ->
  minterm_eval_trace fetch (before ++ p :: after) = (before ++ [p], false).
Proof.
  induction before as [|q before IH]; simpl; intros p after Hb Hp.
  - now rewrite Hp.
  - apply andb_true_iff in Hb as [Hq Hb]. rewrite Hq. simpl.
    now rewrite (IH p after Hb Hp).
Qed.

Lemma minterm_eval_trace_all fetch m :
  forallb (predicate_eval fetch) m = true ->
  minterm_eval_trace fetch m = (m, true).
Proof.
  induction m as [|q m IH]; simpl; [reflexivity|].
  intros Hb. apply andb_true_iff in Hb as [Hq Hb]. rewrite Hq. simpl.
  now rewrite (IH Hb).
Qed.

Lemma minterm_eval_trace_prefix fetch m :
  exists unseen, m = fst (minterm_eval_trace fetch m) ++ unseen.
Proof.
  induction m as [|q m IH]; simpl; [now exists []|].
  destruct (predicate_eval fetch q); simpl.
  - destruct IH as (unseen & IH). exists unseen.
    destruct (minterm_eval_trace fetch m). simpl in *. now f_equal.
  - now exists m.
Qed.

(** C6. A minterm's [test] is the conjunction of its predicates' tests, for
    a record and for a snapshot; the loop evaluates the predicates in the
    order of the set, which is ascending in the canonical form, and stops at
    the first predicate that fails, whatever follows it; the empty minterm
    passes. *)
Theorem minterm_test_is_short_circuit_conjunction
        (m : compiled_minterm) (ps : list compiled_predicate) :
  (forall r, minterm_test m r = forallb (fun p => predicate_test p r) m) /\
  (forall snap data,
      minterm_test_snapshot m snap data =
        forallb (fun p => predicate_test_snapshot p snap data) m) /\
  (forall fetch, snd (minterm_eval_trace fetch m) = minterm_eval fetch m) /\
  (forall fetch, exists unseen, m = fst (minterm_eval_trace fetch m) ++ unseen) /\
  (forall fetch before p after,
      m = before ++ p :: after ->
      forallb (predicate_eval fetch) before = true ->
      predicate_eval fetch p = false ->
      minterm_eval_trace fetch m = (before ++ [p], false)) /\
  (forall fetch,
      forallb (predicate_eval fetch) m = true ->
      minterm_eval_trace fetch m = (m, true)) /\
  ascending predicate_to_string (minterm_of ps) /\
  (forall r, minterm_test [] r = true) /\
  (forall snap data, minterm_test_snapshot [] snap data = true).
Proof.
  repeat split.
  - intros r. apply minterm_eval_forallb.
  - intros snap data. apply minterm_eval_forallb.
  - intros fetch. apply minterm_eval_trace_result.
  - intros fetch. apply minterm_eval_trace_prefix.
  - intros fetch before p after -> Hb Hp. now apply minterm_eval_trace_stops.
  - intros fetch. apply minterm_eval_trace_all.
  - apply minterm_of_ascending.
Qed.


Lemma union_by_canonical_form_set_union L R :
  ascending minterm_to_string L -> ascending minterm_to_string R ->
  union_by_canonical_form L R = set_union minterm_to_string L R.
Proof. apply inserter_app_union. Qed.

(** C7. For operands that compile, expanding a minterm against
    [OR(left, right)] gives the union of the two expansions: the minterms of
    both, one per canonical form (that of the left expansion where both have
    one), in canonical order. *)
Theorem expand_or_is_union (schema : schema_t) (m : compiled_minterm)
        (left right : utree) (eL eR : compiled_expression) :
  labels_distinct ->
  compile_expression left schema = Ok eL ->
  compile_expression right schema = Ok eR ->
  exists L R,
    utree_expand_conjunction m schema left = Ok L /\
    utree_expand_conjunction m schema right = Ok R /\
    utree_expand_conjunction m schema (or_node left right) =
      Ok (union_by_canonical_form L R) /\
    ascending minterm_to_string (union_by_canonical_form L R) /\
    (forall c,
        In c (canons minterm_to_string (union_by_canonical_form L R)) <->
        In c (canons minterm_to_string L) \/ In c (canons minterm_to_string R)) /\
    (forall x,
        In x (union_by_canonical_form L R) <->
        In x L \/
        (In x R /\ ~ In (minterm_to_string x) (canons minterm_to_string L))).
Proof.
  unfold compile_expression. intros Hd Hl Hr.
  assert (exists L, utree_expand_conjunction m schema left = Ok L) as (L & HL).
  { apply expand_compilable, compile_compilable. eauto. }
  assert (exists R, utree_expand_conjunction m schema right = Ok R) as (R & HR).
  { apply expand_compilable, compile_compilable. eauto. }
  exists L, R.
  pose proof (expand_ascending _ _ _ _ HL) as HaL.
  pose proof (expand_ascending _ _ _ _ HR) as HaR.
  rewrite union_by_canonical_form_set_union by assumption.
  split; [assumption|]. split; [assumption|]. split; [|split; [|split]].
  - unfold or_node. rewrite expand_node, switch_OR, HL, HR by assumption.
    cbn [bind]. f_equal. apply inserter_empty.
    now apply set_union_ascending.
  - now apply set_union_ascending.
  - intros c. apply set_union_canons.
  - intros x. now apply set_union_member.
Qed.

(** C8. A compiled expression holds no two minterms with the same canonical
    form, and none of its minterms holds two predicates with the same
    canonical form; the same is true of a minterm after [add] and of the
    expression a set union is written into; adding a predicate whose
    canonical form is already in the minterm changes nothing. *)
Theorem sets_hold_no_duplicates (schema : schema_t) (t : utree)
        (e : compiled_expression)
        (ps : list compiled_predicate) (p q : compiled_predicate)
        (L R : compiled_expression) :
  compile_expression t schema = Ok e ->
  In (predicate_to_string p) (canons predicate_to_string (minterm_of ps)) ->
  NoDup (canons minterm_to_string e) /\
  (forall m, In m e -> NoDup (canons predicate_to_string m)) /\
  NoDup (canons predicate_to_string (minterm_add q (minterm_of ps))) /\
  NoDup (canons minterm_to_string
           (inserter minterm_to_string [] (set_union minterm_to_string L R))) /\
  NoDup (canons minterm_to_string
           (inserter minterm_to_string e (set_union minterm_to_string e R))) /\
  minterm_add p (minterm_of ps) = minterm_of ps.
Proof.
  unfold compile_expression. intros He Hp.
  destruct (compile_sets_ascending _ _ _ He) as [Hexp Hmin].
  repeat split.
  - now apply ascending_NoDup_canons.
  - intros m Hm. apply ascending_NoDup_canons. auto.
  - apply ascending_NoDup_canons, set_insert_ascending, minterm_of_ascending.
  - apply ascending_NoDup_canons, inserter_ascending. exact I.
  - now apply ascending_NoDup_canons, inserter_ascending.
  - apply set_insert_present; [apply minterm_of_ascending|assumption].
Qed.

(** C9, on the code. With exactly two minterms [to_string] writes the two
    canonical forms with nothing between them: the loop appends the separator
    only while [i < size - 1], which is never the case for two. *)
Theorem to_string_of_two_minterms (m1 m2 : compiled_minterm) :
  expression_to_string [m1; m2] =
    (minterm_to_string m1 ++ minterm_to_string m2)%string /\
  expression_to_string [m1; m2] <>
    (minterm_to_string m1 ++ " or " ++ minterm_to_string m2)%string.
Proof.
  assert (expression_to_string [m1; m2] =
            (minterm_to_string m1 ++ minterm_to_string m2)%string) as Heq
    by reflexivity.
  split; [assumption|].
  rewrite Heq. intros Hbad.
  apply (f_equal String.length) in Hbad.
  rewrite !StdStringFacts.length_append in Hbad. simpl in Hbad. lia.
Qed.

Lemma size_t_pred_positive s :
  (0 < s < 2 ^ 64)%N -> size_t_pred s = (s - 1)%N.
Proof.
  intros Hs. unfold size_t_pred.
  replace (s + 2 ^ 64 - 1)%N with ((s - 1) + 1 * 2 ^ 64)%N by lia.
  rewrite N.Div0.mod_add. apply N.mod_small. lia.
Qed.

Lemma expression_to_string_loop_join ms : forall s i ret,
  (0 < s < 2 ^ 64)%N ->
  (i + N.of_nat (List.length ms) = s)%N ->
  expression_to_string_loop s i ret ms =
    (ret ++ join_but_last " or " (map minterm_to_string ms))%string.
Proof.
  induction ms as [|m ms IH]; intros s i ret Hs Hi.
  - simpl. now rewrite StdStringFacts.append_nil_r.
  - cbn [expression_to_string_loop map join_but_last].
    rewrite size_t_pred_positive by assumption.
    destruct ms as [|m' [|m'' ms]].
    + replace (N.succ i <? s - 1)%N with false
        by (symmetry; apply N.ltb_ge; cbn [List.length] in Hi; lia).
      reflexivity.
    + replace (N.succ i <? s - 1)%N with false
        by (symmetry; apply N.ltb_ge; cbn [List.length] in Hi; lia).
      rewrite IH by (cbn [List.length] in *; lia).
      cbn [map join_but_last]. now rewrite StdStringFacts.append_assoc.
    + replace (N.succ i <? s - 1)%N with true
        by (symmetry; apply N.ltb_lt; cbn [List.length] in Hi; lia).
      rewrite IH by (cbn [List.length] in *; lia).
      cbn [map]. now rewrite !StdStringFacts.append_assoc.
Qed.

(** What [compiled_expression::to_string] returns, for any number of
    minterms a [size_t] can count: the separator is missing before the last
    minterm. *)
Lemma expression_to_string_join (e : compiled_expression) :
  (N.of_nat (List.length e) < 2 ^ 64)%N ->
  expression_to_string e = join_but_last " or " (map minterm_to_string e).
Proof.
  intros Hlen. destruct e as [|m e]; [reflexivity|].
  unfold expression_to_string.
  rewrite expression_to_string_loop_join; [reflexivity| |lia].
  cbn [List.length] in *. lia.
Qed.

(** With three, only the first separator is written. *)
Lemma to_string_of_three_minterms (m1 m2 m3 : compiled_minterm) :
  expression_to_string [m1; m2; m3] =
    ((minterm_to_string m1 ++ " or " ++ minterm_to_string m2)
       ++ minterm_to_string m3)%string.
Proof.
  unfold expression_to_string. cbn.
  now rewrite !StdStringFacts.append_assoc.
Qed.

Lemma minterm_eval_same_fields fetch fetch' m :
  (forall p, In p m -> fetch (field_idx_ p) = fetch' (field_idx_ p)) ->
  minterm_eval fetch m = minterm_eval fetch' m.
Proof.
  induction m as [|p m IH]; simpl; intros Hsame; [reflexivity|].
  unfold predicate_eval at 1 2. rewrite (Hsame p) by auto.
  rewrite IH by auto. reflexivity.
Qed.

Lemma any_minterm_same_fields fetch fetch' e :
  (forall m p, In m e -> In p m -> fetch (field_idx_ p) = fetch' (field_idx_ p)) ->
  any_minterm fetch e = any_minterm fetch' e.
Proof.
  induction e as [|m e IH]; simpl; intros Hsame; [reflexivity|].
  rewrite (minterm_eval_same_fields fetch fetch' m) by eauto.
  rewrite IH by eauto. reflexivity.
Qed.

(** C10. Two records that agree on every field some predicate of the
    expression refers to get the same answer from [test]. *)
Theorem test_reads_only_referenced_fields (e : compiled_expression)
        (r r' : record_t) :
  (forall m p, In m e -> In p m ->
               record_at r (field_idx_ p) = record_at r' (field_idx_ p)) ->
  expression_test e r = expression_test e r'.
Proof.
  intros Hsame. unfold expression_test, expression_eval.
  destruct e as [|m e]; [reflexivity|].
  now apply any_minterm_same_fields.
Qed.



(** ** Further properties of the code *)

(** X1. [compiled_minterm::to_string] joins the canonical forms of the
    predicates, in the order of the set, with [" and "] between neighbours;
    the empty minterm renders as the empty string and a single predicate as
    its own canonical form. *)
Theorem minterm_canonical_form (m : compiled_minterm) (p : compiled_predicate) :
  minterm_to_string m = String.concat " and " (map predicate_to_string m) /\
  minterm_to_string [] = "" /\
  minterm_to_string [p] = predicate_to_string p.
Proof.
  split; [apply minterm_to_string_concat|].
  split; [reflexivity|apply minterm_to_string_single].
Qed.

(** X2. [compiled_expression::to_string], for any number of minterms a
    [size_t] can count, writes the minterms' canonical forms in the order of
    the set with [" or "] after each but the last two: the separator before
    the last minterm is never written. *)
Theorem expression_rendering (e : compiled_expression) :
  (N.of_nat (List.length e) < 2 ^ 64)%N ->
  expression_to_string e = join_but_last " or " (map minterm_to_string e).
Proof. apply expression_to_string_join. Qed.

(** Every minterm of an expansion holds every predicate of the base minterm,
    and so is not empty. *)
Lemma expand_keeps_base s t : forall m e,
  utree_expand_conjunction m s t = Ok e ->
  forall x, In x e -> (forall q, In q m -> In q x) /\ x <> [].
Proof.
  induction t as [t IH] using operand_induction. intros m e He x Hx.
  node_shape He. destruct (IH _ _ _ _ eq_refl) as [IHl IHr].
  destruct (switch op).
  - leaf_inv He. destruct Hx as [<-|[]]. split.
    + intros q Hq. now apply set_insert_keeps.
    + apply set_insert_nonempty.
  - do 2 bind_inv He. injection He as <-.
    apply inserter_In in Hx as [[]|Hx].
    apply set_union_In in Hx as [Hx|Hx]; eauto.
  - bind_inv He.
    destruct (distribute_In _ _ _ _ _ He Hx) as [[]|(m0 & tmp & Hm0 & Hv & Hin)].
    destruct (IHr _ _ Hv x Hin) as [Hkeep Hne]. split; [|assumption].
    intros q Hq. apply Hkeep. now apply (IHl _ _ Ha m0 Hm0).
  - discriminate.
Qed.

(** X3. A compiled expression is never the empty "always match" expression
    and none of its minterms is empty, so its [test] is a plain disjunction
    of conjunctions: it passes a record exactly when all predicates of some
    minterm pass it. *)
Theorem compiled_expression_is_a_proper_dnf (schema : schema_t) (t : utree)
        (e : compiled_expression) :
  compile_expression t schema = Ok e ->
  e <> [] /\
  (forall m, In m e -> m <> []) /\
  (forall r,
      expression_test e r =
        existsb (fun m => forallb (fun p => predicate_test p r) m) e) /\
  (forall snap data,
      expression_test_snapshot e snap data =
        existsb
          (fun m => forallb (fun p => predicate_test_snapshot p snap data) m) e).
Proof.
  unfold compile_expression. rewrite compile_as_expand. intros He.
  pose proof (expand_nonempty _ _ _ _ He) as Hne.
  assert (forall fetch,
             expression_eval fetch e =
               existsb (fun m => forallb (predicate_eval fetch) m) e) as Heval.
  { intros fetch. rewrite expression_eval_nonempty by assumption.
    clear. induction e as [|m e IH]; simpl; [reflexivity|].
    now rewrite IH, minterm_eval_forallb. }
  repeat split.
  - assumption.
  - intros m Hm. now apply (expand_keeps_base _ _ _ _ He).
  - intros r. apply Heval.
  - intros snap data. apply Heval.
Qed.


(** X5. The top-level visitor computes what the expanding visitor computes
    when it starts from the empty minterm, on every tree and with the same
    exception when it fails. *)
Theorem compile_is_expansion_of_the_empty_minterm (schema : schema_t)
        (t : utree) :
  compile_expression t schema = utree_expand_conjunction [] schema t.
Proof. apply compile_as_expand. Qed.

(** X6. With faithful canonical forms, the compiled expression of any tree
    passes a record (or a snapshot with raw data) exactly when the tree, read
    as a boolean formula over its comparisons, holds of it. *)
Theorem compiled_expression_decides_the_tree (schema : schema_t) (t : utree)
        (e : compiled_expression) :
  canonical_faithful (leaf_predicates schema t) ->
  compile_expression t schema = Ok e ->
  (forall r, expression_test e r = denote (record_at r) schema t) /\
  (forall snap data,
      expression_test_snapshot e snap data =
        denote (snapshot_get snap data) schema t).
Proof.
  intros Hf He. split; intros; now apply compile_denote.
Qed.

(** X7. With faithful canonical forms, expanding a tree under a minterm
    yields an expression that passes a record exactly when the minterm passes
    it and the tree holds of it. *)
Theorem expansion_conjoins_the_minterm (schema : schema_t) (t : utree)
        (m : compiled_minterm) (e : compiled_expression) :
  canonical_faithful (m ++ leaf_predicates schema t) ->
  utree_expand_conjunction m schema t = Ok e ->
  forall r,
    expression_test e r = minterm_test m r && denote (record_at r) schema t.
Proof.
  intros Hf He r. unfold expression_test, minterm_test.
  rewrite expression_eval_nonempty by (eapply expand_nonempty; eauto).
  apply (expand_denote (record_at r) schema _ Hf t m e);
    auto using incl_appl, incl_appr, incl_refl.
Qed.

(** X8. Every minterm of an expansion holds every predicate of the minterm
    it was expanded under, and holds nothing but those predicates and
    predicates built from comparisons of the tree. *)
Theorem expansion_extends_the_minterm (schema : schema_t) (t : utree)
        (m : compiled_minterm) (e : compiled_expression) (x : compiled_minterm) :
  utree_expand_conjunction m schema t = Ok e ->
  In x e ->
  (forall q, In q m -> In q x) /\
  (forall p, In p x -> In p m \/ In p (leaf_predicates schema t)).
Proof.
  intros He Hx. split.
  - now apply (expand_keeps_base _ _ _ _ He).
  - intros p Hp. apply in_app_or.
    assert (incl x (m ++ leaf_predicates schema t)) as Hincl.
    { apply (expand_incl schema t (m ++ leaf_predicates schema t) m e);
        auto using incl_appl, incl_appr, incl_refl. }
    now apply Hincl.
Qed.


(** A predicate built from a comparison of the tree is what the constructor
    makes of that comparison: the name and the index of the column the schema
    gives for its field name, its operator code, and its literal parsed into
    the column's type. *)
Lemma leaf_predicates_from_schema s t p :
  In p (leaf_predicates s t) ->
  exists op attr literal col,
    In (op, attr, literal) (comparisons t) /\
    s attr = Returns col /\
    field_name_ p = name col /\
    field_idx_ p = idx col /\
    op_ p = op /\
    parse literal (type col) = Returns (val_ p).
Proof.
  induction t as [t IH] using operand_induction.
  destruct t as [[|i0 [|i1 [|i2 rest]]]| | | |]; try (intros []);
    destruct i0; try (intros []); cbn [leaf_predicates comparisons].
  - destruct (switch n); intros [].
  - destruct (switch n); try (intros []). destruct i1; intros [].
  - destruct (IH _ _ _ _ eq_refl) as [IHl IHr].
    destruct (switch n); try (intros []).
    + destruct i1; try (intros []). destruct i2; try (intros []).
      unfold make_predicate.
      destruct (s s0) as [col|x] eqn:Hcol; simpl; [|intros []].
      destruct (parse s1 (type col)) as [v|x] eqn:Hv; simpl; [|intros []].
      intros [<-|[]]. exists n, s0, s1, col. simpl. auto 10.
    + intros Hp. apply in_app_or in Hp as [Hp|Hp].
      * destruct (IHl Hp) as (op & attr & literal & col & Hin & Hrest).
        exists op, attr, literal, col. split; [|exact Hrest].
        apply in_or_app. now left.
      * destruct (IHr Hp) as (op & attr & literal & col & Hin & Hrest).
        exists op, attr, literal, col. split; [|exact Hrest].
        apply in_or_app. now right.
    + intros Hp. apply in_app_or in Hp as [Hp|Hp].
      * destruct (IHl Hp) as (op & attr & literal & col & Hin & Hrest).
        exists op, attr, literal, col. split; [|exact Hrest].
        apply in_or_app. now left.
      * destruct (IHr Hp) as (op & attr & literal & col & Hin & Hrest).
        exists op, attr, literal, col. split; [|exact Hrest].
        apply in_or_app. now right.
Qed.

(** X9. The compiled expression of a tree reads a record only at the
    columns the tree's comparisons name: two records that agree on the
    indexes of the predicates built from those comparisons get the same
    answer; and every predicate of the compiled expression, like every
    predicate built from the tree, belongs to a comparison [attr op literal]
    that occurs in the tree: it carries the name and the index the schema
    gives for [attr], the operator code [op], and [literal] parsed into the
    type of that column. *)
Theorem compiled_test_reads_the_columns_of_the_tree (schema : schema_t)
        (t : utree) (e : compiled_expression) (r r' : record_t) :
  compile_expression t schema = Ok e ->
  (forall p, In p (leaf_predicates schema t) ->
             record_at r (field_idx_ p) = record_at r' (field_idx_ p)) ->
  expression_test e r = expression_test e r' /\
  (forall m p, In m e -> In p m ->
               exists op attr literal col,
                 In (op, attr, literal) (comparisons t) /\
                 schema attr = Returns col /\
                 field_name_ p = name col /\
                 field_idx_ p = idx col /\
                 op_ p = op /\
                 parse literal (type col) = Returns (val_ p)) /\
  (forall p, In p (leaf_predicates schema t) ->
             exists op attr literal col,
               In (op, attr, literal) (comparisons t) /\
               schema attr = Returns col /\
               field_name_ p = name col /\
               field_idx_ p = idx col /\
               op_ p = op /\
               parse literal (type col) = Returns (val_ p)).
Proof.
  unfold compile_expression. rewrite compile_as_expand. intros He Hsame.
  assert (forall m, In m e -> incl m (leaf_predicates schema t)) as Hincl.
  { apply (expand_incl schema t (leaf_predicates schema t) [] e);
      auto using incl_refl. intros q []. }
  split; [|split].
  - unfold expression_test, expression_eval.
    destruct e as [|m e]; [reflexivity|].
    apply any_minterm_same_fields. intros m0 p Hm0 Hp.
    apply Hsame. now apply (Hincl m0).
  - intros m p Hm Hp. apply (leaf_predicates_from_schema schema t).
    now apply (Hincl m).
  - intros p. apply leaf_predicates_from_schema.
Qed.

(** X10. In both [AND] loops the union is written into the set it reads
    from; run that way, step by step on the live set, the loops end with the
    expression [distribute] computes (and with the same exception). *)
Theorem and_loops_may_merge_in_place (schema : schema_t) (r : utree)
        (left : list compiled_minterm) :
  distribute_in_place (fun m => utree_expand_conjunction m schema r) left [] =
    Some (distribute (fun m => utree_expand_conjunction m schema r) left []).
Proof. apply and_loops_in_place. Qed.

(** The exception of a failing expansion does not depend on the minterm. *)
Lemma expand_error_independent s t : forall m m' x,
  utree_expand_conjunction m s t = Err x ->
  utree_expand_conjunction m' s t = Err x.
Proof.
  induction t as [children IH| | | |] using utree_induction; intros m m' x;
    try (intros H0; exact H0).
  destruct children as [|i0 [|i1 after_left]]; try (intros H0; exact H0).
  destruct i0; try (intros H0; exact H0).
  inversion IH as [|? ? _ IHop]; subst.
  inversion IHop as [|? ? IHl IHrest]; subst.
  destruct after_left as [|i2 rest].
  - simpl. destruct (switch n); try (intros H0; exact H0).
    + intros Hb. apply bind_Err in Hb as [Hb|(L & _ & Hb)]; [|discriminate].
      now rewrite (IHl m m' x Hb).
    + intros Hb. apply bind_Err in Hb as [Hb|(L & _ & Hb)]; [|discriminate].
      now rewrite (IHl m m' x Hb).
  - inversion IHrest as [|? ? IHr _]; subst.
    rewrite !expand_node. destruct (switch n).
    + destruct (utree_to_string i1); simpl; try (intros H0; exact H0).
      destruct (utree_to_string i2); simpl; try (intros H0; exact H0).
      destruct (make_predicate a n a0 s); simpl;
        [discriminate|intros H0; exact H0|discriminate].
    + destruct (utree_expand_conjunction m s i1) as [L|y|] eqn:HL; simpl.
      * assert (exists L', utree_expand_conjunction m' s i1 = Ok L') as (L' & ->).
        { apply expand_compilable, (expand_compilable s i1 m). eauto. }
        simpl.
        destruct (utree_expand_conjunction m s i2) as [R|y|] eqn:HR; simpl;
          [discriminate| |discriminate].
        intros [= ->]. now rewrite (IHr m m' x HR).
      * intros [= ->]. now rewrite (IHl m m' x HL).
      * discriminate.
    + destruct (utree_expand_conjunction m s i1) as [L|y|] eqn:HL; simpl.
      * assert (exists L', utree_expand_conjunction m' s i1 = Ok L') as (L' & HL').
        { apply expand_compilable, (expand_compilable s i1 m). eauto. }
        rewrite HL'. simpl.
        pose proof (expand_nonempty _ _ _ _ HL) as HneL.
        pose proof (expand_nonempty _ _ _ _ HL') as HneL'.
        destruct L as [|m0 L]; [congruence|].
        destruct L' as [|m0' L']; [congruence|].
        cbn [distribute].
        destruct (utree_expand_conjunction m0 s i2) as [tmp|y|] eqn:Hm0; simpl.
        -- intros Hd. exfalso.
           assert (exists e, distribute
                     (fun lor_m => utree_expand_conjunction lor_m s i2) L
                     (inserter minterm_to_string []
                        (set_union minterm_to_string [] tmp)) = Ok e)
             as (e & He).
           { apply distribute_Ok. intros m1 _.
             apply expand_compilable, (expand_compilable s i2 m0). eauto. }
           congruence.
        -- intros [= ->]. now rewrite (IHr m0 m0' x Hm0).
        -- discriminate.
      * intros [= ->]. now rewrite (IHl m m' x HL).
      * discriminate.
    + intros H0; exact H0.
Qed.

(** Neither does running past the last child of a range. *)
Lemma expand_undefined_independent s t m m' :
  utree_expand_conjunction m s t = Undefined ->
  utree_expand_conjunction m' s t = Undefined.
Proof.
  intros Hu.
  destruct (utree_expand_conjunction m' s t) as [e|x|] eqn:He; [| |reflexivity].
  - assert (exists e', utree_expand_conjunction m s t = Ok e') as (e' & He').
    { apply expand_compilable, (expand_compilable s t m'). eauto. }
    congruence.
  - rewrite (expand_error_independent s t m' m x He) in Hu. discriminate.
Qed.

Lemma compile_error_as_expand s t x m :
  utree_compile_expression s t = Err x ->
  utree_expand_conjunction m s t = Err x.
Proof.
  rewrite compile_as_expand. apply expand_error_independent.
Qed.

(** X11. A failing compilation reports the exception of its leftmost failing
    operand: [AND(l, r)] and [OR(l, r)] fail with an exception exactly when
    [l] fails with it, or [l] compiles and [r] fails with it. The exception of
    a failing expansion does not depend on the minterm it carries. *)
Theorem operand_exceptions_surface_left_first (schema : schema_t)
        (l r : utree) (x : exception) (m m' : compiled_minterm) :
  labels_distinct ->
  let fails_left_first :=
    compile_expression l schema = Err x \/
    ((exists eL, compile_expression l schema = Ok eL) /\
     compile_expression r schema = Err x) in
  (compile_expression (and_node l r) schema = Err x <-> fails_left_first) /\
  (compile_expression (or_node l r) schema = Err x <-> fails_left_first) /\
  (utree_expand_conjunction m schema l = Err x ->
   utree_expand_conjunction m' schema l = Err x).
Proof.
  intros Hd. unfold compile_expression. cbv zeta.
  split; [|split; [|apply expand_error_independent]].
  - unfold and_node. rewrite compile_node, switch_AND by assumption.
    destruct (utree_compile_expression schema l) as [eL|y|] eqn:HL; simpl.
    + pose proof HL as HL'. rewrite compile_as_expand in HL'.
      pose proof (expand_nonempty _ _ _ _ HL') as Hne.
      destruct eL as [|m0 eL]; [congruence|]. cbn [distribute].
      destruct (utree_compile_expression schema r) as [eR|z|] eqn:HR.
      * assert (exists e, distribute
                  (fun m1 => utree_expand_conjunction m1 schema r) (m0 :: eL) []
                  = Ok e) as (e & He).
        { apply distribute_Ok. intros m1 _.
          apply expand_compilable, compile_compilable. eauto. }
        cbn [distribute] in He. rewrite He.
        split; [discriminate|]. intros [|[_ ?]]; discriminate.
      * rewrite (compile_error_as_expand schema r z m0 HR). simpl.
        split.
        -- intros [= ->]. right. eauto.
        -- intros [|[_ [= ->]]]; [discriminate|reflexivity].
      * rewrite compile_as_expand in HR.
        rewrite (expand_undefined_independent schema r [] m0 HR). simpl.
        split; [discriminate|]. intros [|[_ ?]]; discriminate.
    + split.
      * intros [= ->]. now left.
      * intros [[= ->]|[(eL & HeL) _]]; [reflexivity|discriminate].
    + split; [discriminate|].
      intros [|[(eL & HeL) _]]; discriminate.
  - unfold or_node. rewrite compile_node, switch_OR by assumption.
    destruct (utree_compile_expression schema l) as [eL|y|] eqn:HL; simpl.
    + destruct (utree_compile_expression schema r) as [eR|z|] eqn:HR; simpl.
      * split; [discriminate|]. intros [|[_ ?]]; discriminate.
      * split.
        -- intros [= ->]. right. eauto.
        -- intros [|[_ [= ->]]]; [discriminate|reflexivity].
      * split; [discriminate|]. intros [|[_ ?]]; discriminate.
    + split.
      * intros [= ->]. now left.
      * intros [[= ->]|[(eL & HeL) _]]; [reflexivity|discriminate].
    + split; [discriminate|].
      intros [|[(eL & HeL) _]]; discriminate.
Qed.

Lemma set_insert_length {T : Type} (canon : T -> string) x (s : list T) :
  List.length s <= List.length (set_insert canon x s) <= S (List.length s).
Proof.
  induction s as [|y s IH]; simpl; [lia|].
  destruct (less canon x y); [simpl; lia|].
  destruct (less canon y x); simpl; lia.
Qed.

(** X12. After [add(p)] the minterm has a member with [p]'s canonical form,
    still has every member it had, has no member other than those and [p],
    and has grown by at most one. *)
Theorem add_inserts_and_keeps (p : compiled_predicate) (m : compiled_minterm) :
  In (predicate_to_string p) (canons predicate_to_string (minterm_add p m)) /\
  (forall q, In q m -> In q (minterm_add p m)) /\
  (forall q, In q (minterm_add p m) -> q = p \/ In q m) /\
  List.length m <= List.length (minterm_add p m) <= S (List.length m).
Proof.
  unfold minterm_add. repeat split.
  - apply set_insert_canon_In.
  - intros q. apply set_insert_keeps.
  - intros q. apply set_insert_In.
  - apply set_insert_length.
  - apply set_insert_length.
Qed.

(** X13. The two [test] overloads agree: when the snapshot yields, for every
    field a predicate of the expression refers to, the value the record holds
    there, testing the snapshot and testing the record give the same
    answer. *)
Theorem snapshot_test_agrees_with_record_test (e : compiled_expression)
        (r : record_t) (snap : schema_snapshot) (data : raw_data) :
  (forall m p, In m e -> In p m ->
               snapshot_get snap data (field_idx_ p) =
                 record_at r (field_idx_ p)) ->
  expression_test_snapshot e snap data = expression_test e r.
Proof.
  intros Hsame. unfold expression_test_snapshot, expression_test, expression_eval.
  destruct e as [|m e]; [reflexivity|].
  now apply any_minterm_same_fields.
Qed.

Lemma equivalent_iff_same_canon {T : Type} (canon : T -> string) (x y : T) :
  equivalent canon x y = true <-> canon x = canon y.
Proof.
  unfold equivalent. split.
  - intros Heq. apply andb_true_iff in Heq as [Hxy Hyx].
    apply negb_true_iff in Hxy, Hyx. now apply less_equiv.
  - intros Heq. unfold less. rewrite Heq, StdStringFacts.lt_irrefl. reflexivity.
Qed.

(** X14. [operator<] of predicates and of minterms is a strict weak order,
    as [std::set] requires of its comparator: nothing is below itself, below
    is transitive, and two members neither of which is below the other are
    exactly those with the same canonical string. *)
Theorem canonical_order_is_strict_weak :
  (forall p : compiled_predicate, less predicate_to_string p p = false) /\
  (forall p q r : compiled_predicate,
      less predicate_to_string p q = true ->
      less predicate_to_string q r = true ->
      less predicate_to_string p r = true) /\
  (forall p q : compiled_predicate,
      equivalent predicate_to_string p q = true <->
      predicate_to_string p = predicate_to_string q) /\
  (forall m : compiled_minterm, less minterm_to_string m m = false) /\
  (forall m n o : compiled_minterm,
      less minterm_to_string m n = true ->
      less minterm_to_string n o = true ->
      less minterm_to_string m o = true) /\
  (forall m n : compiled_minterm,
      equivalent minterm_to_string m n = true <->
      minterm_to_string m = minterm_to_string n).
Proof.
  split; [apply less_irrefl|].
  split; [apply less_trans|].
  split; [apply equivalent_iff_same_canon|].
  split; [apply less_irrefl|].
  split; [apply less_trans|apply equivalent_iff_same_canon].
Qed.

Lemma set_union_self {T : Type} (canon : T -> string) (s : list T) :
  set_union canon s s = s.
Proof.
  induction s as [|x s IH]; [reflexivity|].
  rewrite set_union_cons, less_irrefl. now f_equal.
Qed.

(** X15. An [OR] of a tree with itself compiles to what the tree compiles
    to. *)
Theorem or_of_a_tree_with_itself (schema : schema_t) (A : utree)
        (e : compiled_expression) :
  labels_distinct ->
  compile_expression A schema = Ok e ->
  compile_expression (or_node A A) schema = Ok e.
Proof.
  unfold compile_expression. intros Hd He.
  rewrite (compile_or_node schema A A e e Hd He He), set_union_self.
  f_equal. apply inserter_empty.
  now apply (compile_sets_ascending schema A e).
Qed.

(** X16. [OR] is associative up to the canonical string: [OR(OR(A, B), C)]
    and [OR(A, OR(B, C))] compile to expressions whose minterms have the same
    canonical forms in the same order, and that render alike. *)
Theorem or_is_associative (schema : schema_t) (A B C : utree)
        (eA eB eC : compiled_expression) :
  labels_distinct ->
  compile_expression A schema = Ok eA ->
  compile_expression B schema = Ok eB ->
  compile_expression C schema = Ok eC ->
  exists e1 e2,
    compile_expression (or_node (or_node A B) C) schema = Ok e1 /\
    compile_expression (or_node A (or_node B C)) schema = Ok e2 /\
    canons minterm_to_string e1 = canons minterm_to_string e2 /\
    expression_to_string e1 = expression_to_string e2.
Proof.
  unfold compile_expression. intros Hd HA HB HC.
  pose proof (compile_or_node schema A B eA eB Hd HA HB) as HAB.
  pose proof (compile_or_node schema B C eB eC Hd HB HC) as HBC.
  rewrite (compile_or_node schema _ C _ eC Hd HAB HC).
  rewrite (compile_or_node schema A _ eA _ Hd HA HBC).
  do 2 eexists. split; [reflexivity|]. split; [reflexivity|].
  assert (canons minterm_to_string
            (inserter minterm_to_string []
               (set_union minterm_to_string
                  (inserter minterm_to_string []
                     (set_union minterm_to_string eA eB)) eC)) =
          canons minterm_to_string
            (inserter minterm_to_string []
               (set_union minterm_to_string eA
                  (inserter minterm_to_string []
                     (set_union minterm_to_string eB eC))))) as Hcanons.
  { apply canons_ext; try (apply inserter_ascending; exact I).
    intros c.
    rewrite !inserter_canons, !set_union_canons, !inserter_canons,
      !set_union_canons.
    simpl. tauto. }
  split; [assumption|]. now apply expression_to_string_canons.
Qed.

(** X17. With canonical forms that tell conjunctions apart, the minterms of
    a compiled [AND(A, B)] are exactly the unions of a minterm of [A] with a
    minterm of [B] (the predicates of the second added to the first). *)
Theorem and_is_the_product_of_its_operands (schema : schema_t) (A B : utree)
        (eA eB e : compiled_expression) (x : compiled_minterm) :
  labels_distinct ->
  canonical_exact (leaf_predicates schema A ++ leaf_predicates schema B) ->
  compile_expression A schema = Ok eA ->
  compile_expression B schema = Ok eB ->
  compile_expression (and_node A B) schema = Ok e ->
  (In x e <->
   exists a b, In a eA /\ In b eB /\ x = inserter predicate_to_string a b).
Proof.
  unfold compile_expression. intros Hd Hex HA HB He.
  apply (and_node_members schema
           (leaf_predicates schema A ++ leaf_predicates schema B) A B);
    auto using incl_appl, incl_appr, incl_refl.
Qed.

End CompilerFacts.

(** ** The claims on concrete trees *)

Module FixtureFacts.

Import Fixture.

#[local] Existing Instance collaborators.

Lemma fixture_labels_distinct : labels_distinct.
Proof.
  cbv. intuition discriminate.
Qed.

(** What the fixture's trees compile to. *)
Lemma a_is_1_compiles :
  compile_expression a_is_1 schema =
    Ok [[{| field_name_ := "a"; field_idx_ := 0; op_ := 4; val_ := int_value 1 |}]].
Proof. reflexivity. Qed.

Lemma a_is_2_compiles :
  compile_expression a_is_2 schema =
    Ok [[{| field_name_ := "a"; field_idx_ := 0; op_ := 4; val_ := int_value 2 |}]].
Proof. reflexivity. Qed.

Lemma b_is_x_compiles :
  compile_expression b_is_x schema =
    Ok [[{| field_name_ := "b"; field_idx_ := 1; op_ := 4;
            val_ := string_value "x" |}]].
Proof. reflexivity. Qed.

Lemma a_above_5_and_b_is_x_compiles :
  compile_expression (and_node a_above_5 b_is_x) schema =
    Ok [[{| field_name_ := "a"; field_idx_ := 0; op_ := 2; val_ := int_value 5 |};
         {| field_name_ := "b"; field_idx_ := 1; op_ := 4;
            val_ := string_value "x" |}]].
Proof. reflexivity. Qed.

Lemma fixture_faithful :
  canonical_faithful
    (leaf_predicates schema (and_node a_above_5 (or_node b_is_x a_is_1))).
Proof.
  apply tokens_faithful.
  - intros p [<-|[<-|[<-|[]]]]; reflexivity.
  - intros p q [<-|[<-|[<-|[]]]] [<-|[<-|[<-|[]]]];
      try reflexivity; vm_compute; discriminate.
Qed.

(** C1, witness: [a > 5 AND (b == x OR a == 1)]. *)
Lemma distribution_correct_witness :
  labels_distinct /\
  canonical_faithful
    (leaf_predicates schema (and_node a_above_5 (or_node b_is_x a_is_1))) /\
  exists e,
    compile_expression (and_node a_above_5 (or_node b_is_x a_is_1)) schema = Ok e /\
    (forall r,
        expression_test e r =
          expression_test [[{| field_name_ := "a"; field_idx_ := 0;
                               op_ := 2; val_ := int_value 5 |}]] r &&
            (expression_test [[{| field_name_ := "b"; field_idx_ := 1;
                                  op_ := 4; val_ := string_value "x" |}]] r ||
               expression_test [[{| field_name_ := "a"; field_idx_ := 0;
                                    op_ := 4; val_ := int_value 1 |}]] r)) /\
    (forall snap data,
        expression_test_snapshot e snap data =
          expression_test_snapshot
            [[{| field_name_ := "a"; field_idx_ := 0;
                 op_ := 2; val_ := int_value 5 |}]] snap data &&
            (expression_test_snapshot
               [[{| field_name_ := "b"; field_idx_ := 1;
                    op_ := 4; val_ := string_value "x" |}]] snap data ||
               expression_test_snapshot
                 [[{| field_name_ := "a"; field_idx_ := 0;
                      op_ := 4; val_ := int_value 1 |}]] snap data)).
Proof.
  split; [exact fixture_labels_distinct|].
  split; [exact fixture_faithful|].
  apply (distribution_correct schema a_above_5 b_is_x a_is_1 _ _ _
           fixture_labels_distinct fixture_faithful);
    reflexivity.
Defined.

(** C1, counterexample: [a == 1 AND (b <= 5 OR b < =5)] on the record
    [{a: 1, b: 6}]. The two comparisons of [b] print alike, so the second
    minterm is taken for the first and dropped; the compiled tree rejects the
    record although [a == 1] and [b < =5] both hold. *)
Lemma distribution_fails_when_forms_collide :
  exists e eA eB eC,
    compile_expression (and_node a_is_1 (or_node b_le_5 b_lt_eq5)) schema = Ok e /\
    compile_expression a_is_1 schema = Ok eA /\
    compile_expression b_le_5 schema = Ok eB /\
    compile_expression b_lt_eq5 schema = Ok eC /\
    let r := [int_value 1; string_value "6"] in
    expression_test e r = false /\
    expression_test eA r && (expression_test eB r || expression_test eC r) = true.
Proof.
  do 4 eexists. repeat split; reflexivity.
Qed.


(** C2, witness: [a == 1]. *)
Lemma duplicate_operands_collapse_witness :
  labels_distinct /\
  In EQ relational_labels /\
  exists p,
    make_predicate "a" EQ "1" schema = Ok p /\
    [[{| field_name_ := "a"; field_idx_ := 0; op_ := 4; val_ := int_value 1 |}]]
      = [[p]] /\
    compile_expression (and_node a_is_1 a_is_1) schema = Ok [[p]] /\
    compile_expression (or_node a_is_1 a_is_1) schema = Ok [[p]].
Proof.
  assert (In EQ relational_labels) as Hop by (cbv; tauto).
  split; [exact fixture_labels_distinct|]. split; [exact Hop|].
  exact (duplicate_operands_collapse schema EQ "a" "1" _
           fixture_labels_distinct Hop a_is_1_compiles).
Defined.

Lemma fixture_exact :
  canonical_exact
    (leaf_predicates schema (and_node a_above_5 b_is_x) ++
     leaf_predicates schema a_is_2).
Proof.
  apply tokens_exact.
  - intros p [<-|[<-|[<-|[]]]]; reflexivity.
  - intros p q [<-|[<-|[<-|[]]]] [<-|[<-|[<-|[]]]];
      try reflexivity; vm_compute; discriminate.
Qed.

(** C4, witness: [a == 1] and [b == x]; [a > 5 AND b == x] and [a == 2]. *)
Lemma canonical_string_commutes_witness :
  (exists e1 e2,
      compile_expression (and_node a_is_1 b_is_x) schema = Ok e1 /\
      compile_expression (and_node b_is_x a_is_1) schema = Ok e2 /\
      expression_to_string e1 = expression_to_string e2) /\
  (exists e1 e2,
      compile_expression (or_node a_is_1 b_is_x) schema = Ok e1 /\
      compile_expression (or_node b_is_x a_is_1) schema = Ok e2 /\
      expression_to_string e1 = expression_to_string e2) /\
  (exists e1 e2,
      compile_expression (or_node (and_node a_above_5 b_is_x) a_is_2) schema = Ok e1 /\
      compile_expression (or_node a_is_2 (and_node a_above_5 b_is_x)) schema = Ok e2 /\
      expression_to_string e1 = expression_to_string e2) /\
  (exists e,
      compile_expression (and_node (and_node a_above_5 b_is_x) a_is_2) schema = Ok e /\
      compile_expression (and_node a_is_2 (and_node a_above_5 b_is_x)) schema = Ok e) /\
  (exists e,
      compile_expression (or_node (and_node a_above_5 b_is_x) a_is_2) schema = Ok e /\
      compile_expression (or_node a_is_2 (and_node a_above_5 b_is_x)) schema = Ok e).
Proof.
  assert (In EQ relational_labels) as Hop by (cbv; tauto).
  destruct (canonical_string_commutes schema EQ "a" "1" EQ "b" "x" _ _
              (and_node a_above_5 b_is_x) a_is_2 _ _
              fixture_labels_distinct Hop Hop
              a_is_1_compiles b_is_x_compiles a_above_5_and_b_is_x_compiles
              a_is_2_compiles)
    as (Hand & Hor & Hor_any & _ & Hand_any & Hor_exact).
  split; [exact Hand|]. split; [exact Hor|]. split; [exact Hor_any|].
  split; [exact (Hand_any fixture_exact)|exact (Hor_exact fixture_exact)].
Defined.

(** C4, where it fails: [b <= 5] and [b < =5] both print [b<=5], so each set
    keeps the comparison it meets first. [OR] and [AND] of the two, in one
    operand order and in the other, compile to expressions with the same
    canonical string that hold different predicates and answer differently on
    [{a: 1, b: 6}]. *)
Lemma compiled_result_depends_on_operand_order :
  let r := [int_value 1; string_value "6"] in
  (exists e1 e2,
      compile_expression (or_node b_le_5 b_lt_eq5) schema = Ok e1 /\
      compile_expression (or_node b_lt_eq5 b_le_5) schema = Ok e2 /\
      expression_to_string e1 = expression_to_string e2 /\
      e1 <> e2 /\
      expression_test e1 r = false /\
      expression_test e2 r = true) /\
  (exists e1 e2,
      compile_expression (and_node b_le_5 b_lt_eq5) schema = Ok e1 /\
      compile_expression (and_node b_lt_eq5 b_le_5) schema = Ok e2 /\
      expression_to_string e1 = expression_to_string e2 /\
      e1 <> e2 /\
      expression_test e1 r = false /\
      expression_test e2 r = true) /\
  ~ (forall (A B : utree) (eA eB : compiled_expression),
        compile_expression (or_node A B) schema = Ok eA ->
        compile_expression (or_node B A) schema = Ok eB ->
        eA = eB).
Proof.
  cbv zeta. split; [|split].
  - do 2 eexists. repeat split; try reflexivity. vm_compute. discriminate.
  - do 2 eexists. repeat split; try reflexivity. vm_compute. discriminate.
  - intros Hall.
    specialize (Hall b_le_5 b_lt_eq5 _ _ eq_refl eq_refl).
    revert Hall. vm_compute. discriminate.
Qed.



(** C7, witness: the minterm of [b == x] against [a == 1 OR a == 2]. *)
Lemma expand_or_is_union_witness :
  let bx := {| field_name_ := "b"; field_idx_ := 1; op_ := 4; val_ := string_value "x" |} in
  exists L R,
    utree_expand_conjunction [bx] schema a_is_1 = Ok L /\
    utree_expand_conjunction [bx] schema a_is_2 = Ok R /\
    utree_expand_conjunction [bx] schema (or_node a_is_1 a_is_2) =
      Ok (union_by_canonical_form L R).
Proof.
  intros bx.
  destruct (expand_or_is_union schema [bx] a_is_1 a_is_2 _ _
              fixture_labels_distinct eq_refl eq_refl)
    as (L & R & HL & HR & Hor & _).
  exists L, R. auto.
Defined.

(** C8, witness: the spec's third scenario,
    [(a == 1 AND b == x) OR (a == 1 AND b == x)], and adding [a == 1] to the
    minterm built from [b == x] and [a == 1]. *)
Lemma sets_hold_no_duplicates_witness :
  let a1 := {| field_name_ := "a"; field_idx_ := 0; op_ := 4; val_ := int_value 1 |} in
  let bx := {| field_name_ := "b"; field_idx_ := 1; op_ := 4; val_ := string_value "x" |} in
  let t := or_node (and_node a_is_1 b_is_x) (and_node a_is_1 b_is_x) in
  compile_expression t schema = Ok [[a1; bx]] /\
  minterm_add a1 (minterm_of [bx; a1]) = minterm_of [bx; a1].
Proof.
  intros a1 bx t.
  assert (compile_expression t schema = Ok [[a1; bx]]) as Ht by reflexivity.
  split; [exact Ht|].
  eapply (sets_hold_no_duplicates schema t _ [bx; a1] a1 a1 [] [] Ht).
  cbv. tauto.
Defined.

(** C10, witness: [a > 5] on two records that differ in [b] only. *)
Lemma test_reads_only_referenced_fields_witness :
  let e := [[{| field_name_ := "a"; field_idx_ := 0; op_ := 2; val_ := int_value 5 |}]] in
  expression_test e [int_value 10; string_value "x"] =
    expression_test e [int_value 10; string_value "y"].
Proof.
  intros e.
  apply (test_reads_only_referenced_fields e
           [int_value 10; string_value "x"] [int_value 10; string_value "y"]).
  intros m p [<-|[]] [<-|[]]. reflexivity.
Defined.

(** C6, on [a > 5 AND b == x] and the record [{a: 3, b: x}]: the loop stops
    after [a > 5]. *)
Lemma minterm_test_stops_at_first_failure :
  let a5 := {| field_name_ := "a"; field_idx_ := 0; op_ := 2; val_ := int_value 5 |} in
  let bx := {| field_name_ := "b"; field_idx_ := 1; op_ := 4; val_ := string_value "x" |} in
  minterm_of [bx; a5] = [a5; bx] /\
  minterm_eval_trace (record_at [int_value 3; string_value "x"]) [a5; bx] =
    ([a5], false).
Proof.
  intros a5 bx. split; [reflexivity|].
  apply (minterm_test_is_short_circuit_conjunction [a5; bx] [])
    with (before := []) (after := [bx]); reflexivity.
Defined.

(** C9, on the spec's second scenario, [a == 1 OR a == 2]: no separator
    between the two minterms. *)
Lemma to_string_of_scenario_2 :
  exists e,
    compile_expression (or_node a_is_1 a_is_2) schema = Ok e /\
    expression_to_string e = "a==1a==2".
Proof. eexists. split; reflexivity. Qed.

(** Canonical forms that collide also make the order of operands matter:
    [b == "x and b==y"] prints like the conjunction of [b == x] and [b == y],
    and with them [AND(OR(X, Y), P)] and [AND(P, OR(X, Y))] compile to
    expressions of one and of two minterms. *)
Lemma operand_order_matters_when_forms_collide :
  let X := comparison_node EQ "b" "x and b==y" in
  let Y := and_node (comparison_node EQ "b" "x") (comparison_node EQ "b" "y") in
  let P := comparison_node EQ "b" "xx" in
  exists e1 e2,
    compile_expression (and_node (or_node X Y) P) schema = Ok e1 /\
    compile_expression (and_node P (or_node X Y)) schema = Ok e2 /\
    List.length e1 = 1 /\ List.length e2 = 2 /\
    expression_to_string e1 <> expression_to_string e2.
Proof.
  do 2 eexists. repeat split; try reflexivity.
  vm_compute. discriminate.
Qed.

(** The spec's scenarios 1, 2 and 4. *)
Lemma scenario_1 :
  exists e,
    compile_expression (and_node a_above_5 b_is_x) schema = Ok e /\
    expression_test e [int_value 10; string_value "x"] = true /\
    expression_test e [int_value 3; string_value "x"] = false.
Proof. eexists. repeat split; reflexivity. Qed.

Lemma scenario_2 :
  exists m1 m2 p1 p2,
    compile_expression (or_node a_is_1 a_is_2) schema = Ok [m1; m2] /\
    m1 = [p1] /\ m2 = [p2] /\
    expression_test [m1; m2] [int_value 1; string_value ""] = true /\
    expression_test [m1; m2] [int_value 2; string_value ""] = true /\
    expression_test [m1; m2] [int_value 3; string_value ""] = false.
Proof. do 4 eexists. repeat split; reflexivity. Qed.

Lemma scenario_4 :
  exists err,
    compile_expression (comparison_node EQ "c" "1") schema = Err err.
Proof. eexists. reflexivity. Qed.


(** ** The further properties on concrete trees *)

(** X2, witness: three minterms, [a == 1], [a == 2] and [b == x]. *)
Lemma expression_rendering_witness :
  let e := [[{| field_name_ := "a"; field_idx_ := 0; op_ := 4; val_ := int_value 1 |}];
            [{| field_name_ := "a"; field_idx_ := 0; op_ := 4; val_ := int_value 2 |}];
            [{| field_name_ := "b"; field_idx_ := 1; op_ := 4;
                val_ := string_value "x" |}]] in
  (N.of_nat (List.length e) < 2 ^ 64)%N /\
  expression_to_string e = join_but_last " or " (map minterm_to_string e).
Proof.
  intros e.
  assert (N.of_nat (List.length e) < 2 ^ 64)%N as Hlen by reflexivity.
  split; [exact Hlen|]. exact (expression_rendering e Hlen).
Defined.

Lemma a_is_1_or_a_is_2_compiles :
  compile_expression (or_node a_is_1 a_is_2) schema =
    Ok [[{| field_name_ := "a"; field_idx_ := 0; op_ := 4; val_ := int_value 1 |}];
        [{| field_name_ := "a"; field_idx_ := 0; op_ := 4; val_ := int_value 2 |}]].
Proof. reflexivity. Qed.

(** X3, witness: [a == 1 OR a == 2]. *)
Lemma compiled_expression_is_a_proper_dnf_witness :
  exists e,
    compile_expression (or_node a_is_1 a_is_2) schema = Ok e /\
    e <> [] /\
    (forall m, In m e -> m <> []) /\
    (forall r,
        expression_test e r =
          existsb (fun m => forallb (fun p => predicate_test p r) m) e).
Proof.
  eexists. split; [exact a_is_1_or_a_is_2_compiles|].
  destruct (compiled_expression_is_a_proper_dnf schema _ _
              a_is_1_or_a_is_2_compiles) as (Hne & Hmin & Htest & _).
  auto.
Defined.

Lemma whole_tree_compiles :
  compile_expression (and_node a_above_5 (or_node b_is_x a_is_1)) schema =
    Ok [[{| field_name_ := "a"; field_idx_ := 0; op_ := 4; val_ := int_value 1 |};
         {| field_name_ := "a"; field_idx_ := 0; op_ := 2; val_ := int_value 5 |}];
        [{| field_name_ := "a"; field_idx_ := 0; op_ := 2; val_ := int_value 5 |};
         {| field_name_ := "b"; field_idx_ := 1; op_ := 4;
            val_ := string_value "x" |}]].
Proof. reflexivity. Qed.

(** X6, witness: [a > 5 AND (b == x OR a == 1)]. *)
Lemma compiled_expression_decides_the_tree_witness :
  let t := and_node a_above_5 (or_node b_is_x a_is_1) in
  canonical_faithful (leaf_predicates schema t) /\
  exists e,
    compile_expression t schema = Ok e /\
    (forall r, expression_test e r = denote (record_at r) schema t).
Proof.
  intros t. split; [exact fixture_faithful|].
  eexists. split; [exact whole_tree_compiles|].
  exact (proj1 (compiled_expression_decides_the_tree schema t _
                  fixture_faithful whole_tree_compiles)).
Defined.

Lemma b_is_x_then_a_is_1_faithful :
  canonical_faithful
    ([{| field_name_ := "b"; field_idx_ := 1; op_ := 4;
         val_ := string_value "x" |}] ++ leaf_predicates schema a_is_1).
Proof.
  apply tokens_faithful.
  - intros p [<-|[<-|[]]]; reflexivity.
  - intros p q [<-|[<-|[]]] [<-|[<-|[]]];
      try reflexivity; vm_compute; discriminate.
Qed.

Lemma a_is_1_under_b_is_x :
  utree_expand_conjunction
    [{| field_name_ := "b"; field_idx_ := 1; op_ := 4; val_ := string_value "x" |}]
    schema a_is_1 =
    Ok [[{| field_name_ := "a"; field_idx_ := 0; op_ := 4; val_ := int_value 1 |};
         {| field_name_ := "b"; field_idx_ := 1; op_ := 4;
            val_ := string_value "x" |}]].
Proof. reflexivity. Qed.

(** X7, witness: [a == 1] expanded under the minterm of [b == x]. *)
Lemma expansion_conjoins_the_minterm_witness :
  let bx := {| field_name_ := "b"; field_idx_ := 1; op_ := 4;
               val_ := string_value "x" |} in
  exists e,
    utree_expand_conjunction [bx] schema a_is_1 = Ok e /\
    forall r,
      expression_test e r = minterm_test [bx] r && denote (record_at r) schema a_is_1.
Proof.
  intros bx. eexists. split; [exact a_is_1_under_b_is_x|].
  exact (expansion_conjoins_the_minterm schema a_is_1 [bx] _
           b_is_x_then_a_is_1_faithful a_is_1_under_b_is_x).
Defined.

(** X8, witness: the minterm of [a == 1 AND b == x] in the expansion of
    [a == 1] under the minterm of [b == x]. *)
Lemma expansion_extends_the_minterm_witness :
  let a1 := {| field_name_ := "a"; field_idx_ := 0; op_ := 4; val_ := int_value 1 |} in
  let bx := {| field_name_ := "b"; field_idx_ := 1; op_ := 4;
               val_ := string_value "x" |} in
  (forall q, In q [bx] -> In q [a1; bx]) /\
  (forall p, In p [a1; bx] -> In p [bx] \/ In p (leaf_predicates schema a_is_1)).
Proof.
  intros a1 bx.
  exact (expansion_extends_the_minterm schema a_is_1 [bx] _ [a1; bx]
           a_is_1_under_b_is_x (or_introl eq_refl)).
Defined.

Lemma a_above_5_compiles :
  compile_expression a_above_5 schema =
    Ok [[{| field_name_ := "a"; field_idx_ := 0; op_ := 2; val_ := int_value 5 |}]].
Proof. reflexivity. Qed.

(** X9, witness: [a > 5] on two records that differ in [b] only; its one
    predicate is the comparison [a > 5] of the tree, built on the schema's
    column [a]. *)
Lemma compiled_test_reads_the_columns_of_the_tree_witness :
  let p := {| field_name_ := "a"; field_idx_ := 0; op_ := 2; val_ := int_value 5 |} in
  expression_test [[p]] [int_value 10; string_value "x"] =
    expression_test [[p]] [int_value 10; string_value "y"] /\
  exists op attr literal col,
    In (op, attr, literal) (comparisons a_above_5) /\
    schema attr = Returns col /\
    field_name_ p = name col /\
    field_idx_ p = idx col /\
    op_ p = op /\
    parse literal (type col) = Returns (val_ p).
Proof.
  intros p.
  destruct (compiled_test_reads_the_columns_of_the_tree schema a_above_5 [[p]]
              [int_value 10; string_value "x"] [int_value 10; string_value "y"]
              a_above_5_compiles) as (Hsame & Hfrom & _).
  { intros q [<-|[]]. reflexivity. }
  split; [exact Hsame|]. apply (Hfrom [p] p); now left.
Defined.

(** X11, witness: [c == 1 AND a == 1] over a schema without [c]. *)
Lemma operand_exceptions_surface_left_first_witness :
  compile_expression (and_node (comparison_node EQ "c" "1") a_is_1) schema =
    Err (collaborator_exception "unknown attribute") /\
  compile_expression (or_node (comparison_node EQ "c" "1") a_is_1) schema =
    Err (collaborator_exception "unknown attribute").
Proof.
  destruct (operand_exceptions_surface_left_first schema
              (comparison_node EQ "c" "1") a_is_1
              (collaborator_exception "unknown attribute") [] []
              fixture_labels_distinct) as (Hand & Hor & _).
  split; [apply Hand|apply Hor]; left; reflexivity.
Defined.

(** X13, witness: [a > 5] on a record and on a snapshot of the same
    values. *)
Lemma snapshot_test_agrees_with_record_test_witness :
  let e := [[{| field_name_ := "a"; field_idx_ := 0; op_ := 2; val_ := int_value 5 |}]] in
  expression_test_snapshot e tt [int_value 10; string_value "x"] =
    expression_test e [int_value 10; string_value "x"].
Proof.
  intros e.
  apply (snapshot_test_agrees_with_record_test e
           [int_value 10; string_value "x"] tt [int_value 10; string_value "x"]).
  intros m p _ _. reflexivity.
Defined.

(** X15, witness: [a > 5 AND b == x]. *)
Lemma or_of_a_tree_with_itself_witness :
  compile_expression
    (or_node (and_node a_above_5 b_is_x) (and_node a_above_5 b_is_x)) schema =
    Ok [[{| field_name_ := "a"; field_idx_ := 0; op_ := 2; val_ := int_value 5 |};
         {| field_name_ := "b"; field_idx_ := 1; op_ := 4;
            val_ := string_value "x" |}]].
Proof.
  exact (or_of_a_tree_with_itself schema (and_node a_above_5 b_is_x) _
           fixture_labels_distinct a_above_5_and_b_is_x_compiles).
Defined.

(** X16, witness: [a == 1], [a == 2] and [b == x]. *)
Lemma or_is_associative_witness :
  exists e1 e2,
    compile_expression (or_node (or_node a_is_1 a_is_2) b_is_x) schema = Ok e1 /\
    compile_expression (or_node a_is_1 (or_node a_is_2 b_is_x)) schema = Ok e2 /\
    canons minterm_to_string e1 = canons minterm_to_string e2 /\
    expression_to_string e1 = expression_to_string e2.
Proof.
  exact (or_is_associative schema a_is_1 a_is_2 b_is_x _ _ _
           fixture_labels_distinct a_is_1_compiles a_is_2_compiles
           b_is_x_compiles).
Defined.

Lemma either_a_then_b_exact :
  canonical_exact
    (leaf_predicates schema (or_node a_is_1 a_is_2) ++
     leaf_predicates schema b_is_x).
Proof.
  apply tokens_exact.
  - intros p [<-|[<-|[<-|[]]]]; reflexivity.
  - intros p q [<-|[<-|[<-|[]]]] [<-|[<-|[<-|[]]]];
      try reflexivity; vm_compute; discriminate.
Qed.

Lemma either_a_and_b_compiles :
  compile_expression (and_node (or_node a_is_1 a_is_2) b_is_x) schema =
    Ok [[{| field_name_ := "a"; field_idx_ := 0; op_ := 4; val_ := int_value 1 |};
         {| field_name_ := "b"; field_idx_ := 1; op_ := 4;
            val_ := string_value "x" |}];
        [{| field_name_ := "a"; field_idx_ := 0; op_ := 4; val_ := int_value 2 |};
         {| field_name_ := "b"; field_idx_ := 1; op_ := 4;
            val_ := string_value "x" |}]].
Proof. reflexivity. Qed.

(** X17, witness: [(a == 1 OR a == 2) AND b == x] and its minterm
    [a == 2 and b == x]. *)
Lemma and_is_the_product_of_its_operands_witness :
  let a2 := {| field_name_ := "a"; field_idx_ := 0; op_ := 4; val_ := int_value 2 |} in
  let bx := {| field_name_ := "b"; field_idx_ := 1; op_ := 4;
               val_ := string_value "x" |} in
  exists e eA eB,
    compile_expression (and_node (or_node a_is_1 a_is_2) b_is_x) schema = Ok e /\
    compile_expression (or_node a_is_1 a_is_2) schema = Ok eA /\
    compile_expression b_is_x schema = Ok eB /\
    (In [a2; bx] e <->
     exists a b, In a eA /\ In b eB /\
                 [a2; bx] = inserter predicate_to_string a b).
Proof.
  intros a2 bx. do 3 eexists.
  split; [exact either_a_and_b_compiles|].
  split; [exact a_is_1_or_a_is_2_compiles|].
  split; [exact b_is_x_compiles|].
  exact (and_is_the_product_of_its_operands schema
           (or_node a_is_1 a_is_2) b_is_x _ _ _ [a2; bx]
           fixture_labels_distinct either_a_then_b_exact
           a_is_1_or_a_is_2_compiles b_is_x_compiles either_a_and_b_compiles).
Defined.

End FixtureFacts.
